(** * UP2You job runner: command building, path resolution and job lifecycle

    A shallow embedding of [backend/config.py], [backend/models.py] and
    [backend/services/up2you_runner.py], followed by the properties of the
    command builder, of path resolution and of the job store.

    Conventions:
    - Python [str] is [string]; [List[str]] is [list string]; [Optional[T]] is
      [option T]; [int] is [Z]; a [datetime] is an abstract instant in [Z].
    - [pathlib.Path] is modelled on a POSIX host ([PurePosixPath]): a root
      and the list of the remaining components.
    - Python objects that are shared and mutated in place (the [JobStatus]
      records) live in an explicit heap; the dictionary [_jobs] maps a job
      identifier to the address of its record. *)

From stdpp Require Import gmap strings list fin_maps relations.
From Stdlib Require Import ZArith Ascii DecimalString.

Open Scope string_scope.

(* ===================================================================== *)
(** ** Python helpers *)
(* ===================================================================== *)

(** Truthiness of a [str]: the empty string is falsy. *)
Definition str_truthy (s : string) : bool :=
  match s with
  | EmptyString => false
  | String _ _ => true
  end.

(** [x or d] where [x : Optional[str]] and [d : str]: [None] and the empty
    string are both falsy, every other string is returned as it is. *)
Definition py_or (x : option string) (d : string) : string :=
  match x with
  | Some v => if str_truthy v then v else d
  | None => d
  end.

(** Truthiness of a list: the empty list is falsy. *)
Definition list_truthy {A} (l : list A) : bool :=
  match l with
  | [] => false
  | _ :: _ => true
  end.

(** [command.extend(items)]. *)
Definition extend (command items : list string) : list string :=
  command ++ items.

(** [str(n)] for an [int]. *)
Definition str_of_int (n : Z) : string :=
  NilZero.string_of_int (Z.to_int n).

(** [repr(s)] for a [str]: single quotes, unless the string holds a
    single quote and no double quote; the chosen quote and the backslash
    are escaped, and so are the control characters. Bytes above 127 are
    kept as they are, as Python does for printable characters. *)
Definition squote : ascii := ascii_of_nat 39.
Definition dquote : ascii := ascii_of_nat 34.
Definition backslash : ascii := ascii_of_nat 92.

Fixpoint has_char (c : ascii) (s : string) : bool :=
  match s with
  | EmptyString => false
  | String c' rest => Ascii.eqb c c' || has_char c rest
  end.

Definition hex_digit (n : nat) : ascii :=
  match String.get n "0123456789abcdef" with
  | Some c => c
  | None => "0"%char
  end.

Definition repr_char (quote c : ascii) : string :=
  let n := nat_of_ascii c in
  if Ascii.eqb c quote || Ascii.eqb c backslash
  then String backslash (String c EmptyString)
  else if (n =? 9)%nat then String backslash "t"
  else if (n =? 10)%nat then String backslash "n"
  else if (n =? 13)%nat then String backslash "r"
  else if (n <? 32)%nat || (n =? 127)%nat
  then String backslash
         (String "x" (String (hex_digit (n / 16))
                        (String (hex_digit (n mod 16)) EmptyString)))
  else String c EmptyString.

Fixpoint repr_chars (quote : ascii) (s : string) : string :=
  match s with
  | EmptyString => EmptyString
  | String c rest => repr_char quote c +:+ repr_chars quote rest
  end.

Definition py_repr_str (s : string) : string :=
  let quote :=
    if has_char squote s && negb (has_char dquote s) then dquote else squote in
  String quote (repr_chars quote s +:+ String quote EmptyString).

(** [needle in haystack] for two strings. *)
Fixpoint str_contains (needle haystack : string) : bool :=
  if String.prefix needle haystack then true
  else match haystack with
       | EmptyString => false
       | String _ rest => str_contains needle rest
       end.

(* ===================================================================== *)
(** ** pathlib on a POSIX host *)
(* ===================================================================== *)

Module Pathlib.

Definition sep : ascii := "/"%char.

(** A parsed path: [path_root] is [""], ["/"] or ["//"]; [path_tail] are
    the components after the root. *)
Record Path : Type := mk_path {
  path_root : string;
  path_tail : list string
}.

#[global] Instance Path_eq_dec : EqDecision Path.
Proof. solve_decision. Defined.

(** [s.lstrip("/")]. *)
Fixpoint lstrip_sep (s : string) : string :=
  match s with
  | String c rest => if Ascii.eqb c sep then lstrip_sep rest else s
  | EmptyString => s
  end.

(** [s.split("/")]: never empty, one more piece than there are
    separators. *)
Fixpoint split_sep (s : string) : list string :=
  match s with
  | EmptyString => [EmptyString]
  | String c rest =>
      if Ascii.eqb c sep then EmptyString :: split_sep rest
      else match split_sep rest with
           | piece :: pieces => String c piece :: pieces
           | [] => [String c EmptyString]
           end
  end.

(** [posixpath.splitroot]: exactly two leading separators are kept as the
    root ["//"]; one, or three and more, collapse to ["/"]. *)
Definition splitroot (s : string) : string * string :=
  let stripped := lstrip_sep s in
  let n := (String.length s - String.length stripped)%nat in
  match n with
  | O => ("", s)
  | 2%nat => ("//", stripped)
  | _ => ("/", stripped)
  end.

(** A component is kept when it is neither empty nor ["."]. *)
Definition keep_component (x : string) : bool :=
  str_truthy x && negb (String.eqb x ".").

(** [Path(value)]. *)
Definition parse (value : string) : Path :=
  let '(root, rel) := splitroot value in
  mk_path root (filter (fun x => keep_component x = true) (split_sep rel)).

(** ["/".join(parts)]. *)
Fixpoint join_sep (parts : list string) : string :=
  match parts with
  | [] => ""
  | [x] => x
  | x :: rest => x +:+ "/" +:+ join_sep rest
  end.

(** [str(path)]. *)
Definition to_str (p : Path) : string :=
  if str_truthy (path_root p) then path_root p +:+ join_sep (path_tail p)
  else match path_tail p with
       | [] => "."
       | tail => join_sep tail
       end.

(** [path.is_absolute()]: on POSIX, the path has a root. *)
Definition is_absolute (p : Path) : bool := str_truthy (path_root p).

(** [a / b]: an absolute right operand replaces the left one; a relative
    one is appended to it. *)
Definition joinpath (a b : Path) : Path :=
  if is_absolute b then b
  else mk_path (path_root a) (path_tail a ++ path_tail b).

(** [path.parent]. *)
Definition parent (p : Path) : Path :=
  mk_path (path_root p) (removelast (path_tail p)).

End Pathlib.

Import Pathlib.

(* ===================================================================== *)
(** ** backend/config.py *)
(* ===================================================================== *)

Record Settings : Type := mk_settings {
  up2you_repo_path : Path;
  python_executable : string;
  default_inference_script : string;
  default_base_model_path : string;
  default_segment_model_name : string
}.

(** [os.getenv(name, default)] over an environment [getenv]. *)
Definition os_getenv (getenv : string -> option string) (name default : string)
  : string :=
  match getenv name with
  | Some v => v
  | None => default
  end.

(** [Settings.__init__]: every keyword argument falls back, when falsy, to
    an environment variable and then to a built-in default. *)
Definition Settings_init (getenv : string -> option string)
    (repo_path executable script base_model segment_model : option string)
  : Settings :=
  {| up2you_repo_path :=
       parse (py_or repo_path (os_getenv getenv "UP2YOU_REPO_PATH" "/opt/UP2You"));
     python_executable :=
       py_or executable (os_getenv getenv "PYTHON_EXECUTABLE" "python");
     default_inference_script :=
       py_or script (os_getenv getenv "UP2YOU_INFERENCE_SCRIPT" "inference_low_gpu.py");
     default_base_model_path :=
       py_or base_model
         (os_getenv getenv "UP2YOU_BASE_MODEL_PATH" "stabilityai/stable-diffusion-2-1-base");
     default_segment_model_name :=
       py_or segment_model
         (os_getenv getenv "UP2YOU_SEGMENT_MODEL_NAME" "ZhengPeng7/BiRefNet") |}.

(** [Settings.resolve_path]. *)
Definition resolve_path (settings : Settings) (value : string) : Path :=
  let candidate := parse value in
  if is_absolute candidate then candidate
  else joinpath (up2you_repo_path settings) candidate.

(** [Settings.inference_script_path]. *)
Definition inference_script_path (settings : Settings)
    (script_name : option string) : Path :=
  let script := py_or script_name (default_inference_script settings) in
  resolve_path settings script.

(** The module-level [settings = Settings()] under an empty environment. *)
Definition default_settings : Settings :=
  Settings_init (fun _ => None) None None None None None.

(* ===================================================================== *)
(** ** backend/models.py *)
(* ===================================================================== *)

Inductive JobState : Type := QUEUED | RUNNING | SUCCEEDED | FAILED.

#[global] Instance JobState_eq_dec : EqDecision JobState.
Proof. solve_decision. Defined.

Definition datetime : Type := Z.

Record JobRequest : Type := mk_request {
  data_dir : string;
  output_dir : string;
  base_model_path : option string;
  segment_model_name : option string;
  inference_script : option string;
  extra_args : list string
}.

Record JobStatus : Type := mk_status {
  job_id : string;
  state : JobState;
  command : list string;
  created_at : datetime;
  started_at : option datetime;
  completed_at : option datetime;
  exit_code : option Z;
  log_path : option string;
  message : option string
}.

#[global] Instance JobStatus_eq_dec : EqDecision JobStatus.
Proof. solve_decision. Defined.

Record JobCreatedResponse : Type := mk_created {
  resp_job_id : string;
  resp_state : JobState;
  resp_command : list string;
  resp_created_at : datetime
}.

(** A terminal state. *)
Definition terminal (s : JobState) : bool :=
  match s with
  | SUCCEEDED | FAILED => true
  | QUEUED | RUNNING => false
  end.

(* ===================================================================== *)
(** ** backend/services/up2you_runner.py: the command builder *)
(* ===================================================================== *)

(** [JobManager._resolve_path]. *)
Definition _resolve_path (settings : Settings) (value : string) : Path :=
  resolve_path settings value.

(** [JobManager._build_command]: the list is grown by successive
    [extend] calls, the last one guarded by the truthiness of
    [payload.extra_args]. *)
Definition _build_command (settings : Settings) (payload : JobRequest)
  : list string :=
  let script_path := inference_script_path settings (inference_script payload) in
  let command := [python_executable settings; to_str script_path] in
  let command :=
    extend command ["--data_dir"; to_str (_resolve_path settings (data_dir payload))] in
  let command :=
    extend command ["--output_dir"; to_str (_resolve_path settings (output_dir payload))] in
  let base_model :=
    py_or (base_model_path payload) (default_base_model_path settings) in
  let command := extend command ["--base_model_path"; base_model] in
  let segment_model :=
    py_or (segment_model_name payload) (default_segment_model_name settings) in
  let command := extend command ["--segment_model_name"; segment_model] in
  let command :=
    if list_truthy (extra_args payload) then extend command (extra_args payload)
    else command in
  command.

(* ===================================================================== *)
(** ** The job store: shared records under in-place mutation *)
(* ===================================================================== *)

(** The address of a Python object. *)
Definition loc : Type := positive.

(** The [JobManager] together with the [JobStatus] objects it refers to:
    [_jobs] holds references, and every holder of a reference sees the
    attribute writes made through any other. *)
Record JobManager : Type := mk_manager {
  objects : gmap loc JobStatus;
  _jobs : gmap string loc
}.

(** [JobManager.__init__]. *)
Definition JobManager_init : JobManager := mk_manager ∅ ∅.

(** One attribute assignment [status.<field> = value]. *)
Inductive attr_write : Type :=
| set_state (s : JobState)
| set_started_at (t : datetime)
| set_log_path (p : string)
| set_completed_at (t : datetime)
| set_exit_code (c : Z)
| set_message (m : string).

Definition setattr (w : attr_write) (r : JobStatus) : JobStatus :=
  match w with
  | set_state s =>
      mk_status (job_id r) s (command r) (created_at r) (started_at r)
        (completed_at r) (exit_code r) (log_path r) (message r)
  | set_started_at t =>
      mk_status (job_id r) (state r) (command r) (created_at r) (Some t)
        (completed_at r) (exit_code r) (log_path r) (message r)
  | set_log_path p =>
      mk_status (job_id r) (state r) (command r) (created_at r) (started_at r)
        (completed_at r) (exit_code r) (Some p) (message r)
  | set_completed_at t =>
      mk_status (job_id r) (state r) (command r) (created_at r) (started_at r)
        (Some t) (exit_code r) (log_path r) (message r)
  | set_exit_code c =>
      mk_status (job_id r) (state r) (command r) (created_at r) (started_at r)
        (completed_at r) (Some c) (log_path r) (message r)
  | set_message m =>
      mk_status (job_id r) (state r) (command r) (created_at r) (started_at r)
        (completed_at r) (exit_code r) (log_path r) (Some m)
  end.

(** The assignment performed on the object at [status]. *)
Definition store_attr (status : loc) (jm : JobManager) (w : attr_write)
  : JobManager :=
  mk_manager (alter (setattr w) status (objects jm)) (_jobs jm).

(** A run of assignments on one object, in program order. *)
Definition store_attrs (status : loc) (ws : list attr_write) (jm : JobManager)
  : JobManager :=
  foldl (store_attr status) jm ws.

(** The record after a run of assignments. *)
Definition setattrs (ws : list attr_write) (r : JobStatus) : JobStatus :=
  foldl (fun r w => setattr w r) r ws.

(** Reading an object through a reference. *)
Definition deref (jm : JobManager) (status : loc) : option JobStatus :=
  objects jm !! status.

(** [JobManager.get_status]: [self._jobs.get(job_id)] under the lock; the
    result is the reference held by the dictionary, or [None]. *)
Definition get_status (jm : JobManager) (id : string) : option loc :=
  _jobs jm !! id.

(** The record currently stored for [id]. *)
Definition record_of (jm : JobManager) (id : string) : option JobStatus :=
  get_status jm id ≫= deref jm.

(** A locked block of [_run_job]:
    [status = self._jobs[job_id]; <assignments>; self._jobs[job_id] = status].
    [None] stands for the [KeyError] of the first line. *)
Definition locked_update (jm : JobManager) (id : string) (ws : list attr_write)
  : option JobManager :=
  match _jobs jm !! id with
  | None => None
  | Some status =>
      let jm' := store_attrs status ws jm in
      Some (mk_manager (objects jm') (<[id := status]> (_jobs jm')))
  end.

(* ===================================================================== *)
(** ** [create_job] *)
(* ===================================================================== *)

(** The [JobStatus] built at lines 29-34; the optional fields take their
    defaults. *)
Definition new_status (id : string) (cmd : list string) (now : datetime)
  : JobStatus :=
  mk_status id QUEUED cmd now None None None None None.

(** Lines 26-41: [id] is the value of [uuid.uuid4()], [now] that of
    [datetime.utcnow()]. Returns the manager, the reference bound to the
    local [status] and the command. *)
Definition create_job_submit (settings : Settings) (jm : JobManager)
    (id : string) (now : datetime) (payload : JobRequest)
  : JobManager * loc * list string :=
  let cmd := _build_command settings payload in
  let status := fresh (dom (objects jm)) in
  (mk_manager (<[status := new_status id cmd now]> (objects jm))
              (<[id := status]> (_jobs jm)),
   status, cmd).

(** Lines 43-48: the response reads [status.state] through the local
    reference, after the thread has been started. *)
Definition create_job_respond (jm : JobManager) (status : loc) (id : string)
    (cmd : list string) (now : datetime) : option JobCreatedResponse :=
  r ← deref jm status;
  Some (mk_created id (state r) cmd now).

(* ===================================================================== *)
(** ** [_run_job]: the supervisor of one job *)
(* ===================================================================== *)

(** A raised exception, identified by its [repr]. *)
Record Exception : Type := mk_exception { exc_repr : string }.

(** How a call ends: it returns, it raises, or it never ends (it stays
    blocked in [process.wait()], which has no timeout). *)
Inductive outcome : Type :=
| Returned
| Raised (exc : Exception)
| Blocked.

(** What the host answers to the supervisor's effects. *)
Record Host : Type := mk_host {
  (** [datetime.utcnow()] at line 83 and at line 109. *)
  clock_start : datetime;
  clock_finish : datetime;
  (** [path.mkdir(parents=True, exist_ok=True)]: [None] when the directory
      exists afterwards, otherwise the exception raised. *)
  mkdir : Path -> option Exception;
  (** Lines 95-102 for a command, a working directory and a log file:
      the value of [process.wait()], or the exception raised by [open],
      [Popen] or [wait]; [None] when the process never ends, so that
      [wait] never returns. *)
  run_process : list string -> string -> Path -> option (Z + Exception)
}.

(** [KeyError(id)], with the [repr] of the key. *)
Definition KeyError (id : string) : Exception :=
  mk_exception ("KeyError(" +:+ py_repr_str id +:+ ")").

(** [self._resolve_path(payload.output_dir) / f"{job_id}.log"]. *)
Definition job_log_path (settings : Settings) (payload : JobRequest)
    (id : string) : Path :=
  joinpath (_resolve_path settings (output_dir payload)) (parse (id +:+ ".log")).

(** The assignments of the first locked block (lines 89-91). *)
Definition running_writes (start_time : datetime) (log : Path)
  : list attr_write :=
  [set_state RUNNING; set_started_at start_time; set_log_path (to_str log)].

(** The assignments of the second locked block (lines 112-115). *)
Definition final_writes (finished_at : datetime) (code : Z) (msg : string)
  : list attr_write :=
  [set_state (if (code =? 0)%Z then SUCCEEDED else FAILED);
   set_completed_at finished_at;
   set_exit_code code;
   set_message msg].

(** Lines 94-107: the [try] / [except Exception] / [else] around the
    process. *)
Definition supervise (result : Z + Exception) : Z * string :=
  match result with
  | inr exc => ((-1)%Z, "Job crashed with error: " +:+ exc_repr exc)
  | inl code =>
      (code, if (code =? 0)%Z then "Job finished successfully" else "Job failed")
  end.

(** Lines 83-92: log path, directory creation (outside any [try]) and the
    first locked block. *)
Definition run_job_begin (settings : Settings) (host : Host) (jm : JobManager)
    (id : string) (payload : JobRequest) : (JobManager * Path) + Exception :=
  let start_time := clock_start host in
  let log := job_log_path settings payload id in
  match mkdir host (parent log) with
  | Some exc => inr exc
  | None =>
      match locked_update jm id (running_writes start_time log) with
      | None => inr (KeyError id)
      | Some jm' => inl (jm', log)
      end
  end.

(** Lines 94-116: the process and the second locked block, which is
    reached only when the process has ended. *)
Definition run_job_finish (settings : Settings) (host : Host) (jm : JobManager)
    (id : string) (cmd : list string) (log : Path) : JobManager * outcome :=
  match run_process host cmd (to_str (up2you_repo_path settings)) log with
  | None => (jm, Blocked)
  | Some result =>
      let '(code, msg) := supervise result in
      let finished_at := clock_finish host in
      match locked_update jm id (final_writes finished_at code msg) with
      | None => (jm, Raised (KeyError id))
      | Some jm' => (jm', Returned)
      end
  end.

(** [JobManager._run_job]. *)
Definition _run_job (settings : Settings) (host : Host) (jm : JobManager)
    (id : string) (payload : JobRequest) (cmd : list string)
  : JobManager * outcome :=
  match run_job_begin settings host jm id payload with
  | inr exc => (jm, Raised exc)
  | inl (jm', log) => run_job_finish settings host jm' id cmd log
  end.

(** How far the supervisor thread has got when another thread looks. *)
Inductive progress : Type :=
| NotStarted          (* before line 87 *)
| MarkedRunning       (* after the first locked block *)
| Finished.           (* after [_run_job] has gone as far as it goes *)

Definition supervisor_upto (p : progress) (settings : Settings) (host : Host)
    (jm : JobManager) (id : string) (payload : JobRequest) (cmd : list string)
  : JobManager :=
  match p with
  | NotStarted => jm
  | MarkedRunning =>
      match run_job_begin settings host jm id payload with
      | inl (jm', _) => jm'
      | inr _ => jm
      end
  | Finished => fst (_run_job settings host jm id payload cmd)
  end.

(** [JobManager.create_job]: the thread is started at line 41 and runs
    concurrently; [p] is how far it has got when line 43 builds the
    response. *)
Definition create_job (settings : Settings) (host : Host) (jm : JobManager)
    (id : string) (now : datetime) (payload : JobRequest) (p : progress)
  : JobManager * option JobCreatedResponse :=
  let '(jm1, status, cmd) := create_job_submit settings jm id now payload in
  let jm2 := supervisor_upto p settings host jm1 id payload cmd in
  (jm2, create_job_respond jm2 status id cmd now).

(* ===================================================================== *)
(** ** The service as a transition system *)
(* ===================================================================== *)

(** Where the supervisor thread of a job stands between two steps. *)
Inductive sup_pc : Type :=
| PcStart (payload : JobRequest) (cmd : list string)
| PcExec (cmd : list string) (log : Path)
| PcDone
| PcRaised (exc : Exception).

Record System : Type := mk_system {
  manager : JobManager;
  threads : gmap string sup_pc
}.

Definition initial : System := mk_system JobManager_init ∅.

(** Where the thread stands after [_run_job] has ended; a call that
    never ends leaves its thread where it is. *)
Definition pc_after (out : outcome) : option sup_pc :=
  match out with
  | Returned => Some PcDone
  | Raised exc => Some (PcRaised exc)
  | Blocked => None
  end.

(** One step: a submission (the identifier drawn by [uuid4] is new), one
    supervisor running up to the end of its next locked block, or a read
    ([get_status], or the response of [create_job]), which changes
    nothing. A supervisor whose process never ends takes no further
    step. *)
Inductive step (settings : Settings) : System -> System -> Prop :=
| step_create sys id now payload jm' status cmd :
    _jobs (manager sys) !! id = None ->
    create_job_submit settings (manager sys) id now payload = (jm', status, cmd) ->
    step settings sys
      (mk_system jm' (<[id := PcStart payload cmd]> (threads sys)))
| step_begin sys id payload cmd host jm' log :
    threads sys !! id = Some (PcStart payload cmd) ->
    run_job_begin settings host (manager sys) id payload = inl (jm', log) ->
    step settings sys
      (mk_system jm' (<[id := PcExec cmd log]> (threads sys)))
| step_begin_raise sys id payload cmd host exc :
    threads sys !! id = Some (PcStart payload cmd) ->
    run_job_begin settings host (manager sys) id payload = inr exc ->
    step settings sys
      (mk_system (manager sys) (<[id := PcRaised exc]> (threads sys)))
| step_finish sys id cmd log host jm' out pc' :
    threads sys !! id = Some (PcExec cmd log) ->
    run_job_finish settings host (manager sys) id cmd log = (jm', out) ->
    pc_after out = Some pc' ->
    step settings sys
      (mk_system jm' (<[id := pc']> (threads sys)))
| step_read sys :
    step settings sys sys.

Definition reachable (settings : Settings) (sys : System) : Prop :=
  rtc (step settings) initial sys.

(** One step of a record's life: unchanged, [QUEUED] to [RUNNING], or
    [RUNNING] to a terminal state. *)
Definition advances (r r' : JobStatus) : Prop :=
  r' = r
  ∨ (state r = QUEUED ∧ state r' = RUNNING)
  ∨ (state r = RUNNING ∧ terminal (state r') = true).

(** The same on states alone: unchanged, [QUEUED] to [RUNNING], or
    [RUNNING] to a terminal state. *)
Definition state_advances (s s' : JobState) : Prop :=
  s' = s
  ∨ (s = QUEUED ∧ s' = RUNNING)
  ∨ (s = RUNNING ∧ terminal s' = true).

(** The record agrees with where its supervisor stands. *)
Definition pc_agrees (pc : sup_pc) (r : JobStatus) : Prop :=
  match pc with
  | PcStart _ _ => state r = QUEUED ∧ exit_code r = None
  | PcExec _ _ => state r = RUNNING ∧ exit_code r = None
  | PcDone => terminal (state r) = true ∧ is_Some (exit_code r)
  | PcRaised _ => terminal (state r) = false ∧ exit_code r = None
  end.

(** The invariant of the reachable systems. *)
Record sys_inv (sys : System) : Prop := mk_sys_inv {
  inv_record : ∀ id l, _jobs (manager sys) !! id = Some l ->
      ∃ r pc, objects (manager sys) !! l = Some r
              ∧ threads sys !! id = Some pc ∧ pc_agrees pc r;
  inv_inj : ∀ id1 id2 l, _jobs (manager sys) !! id1 = Some l ->
      _jobs (manager sys) !! id2 = Some l -> id1 = id2;
  inv_thread : ∀ id pc, threads sys !! id = Some pc ->
      is_Some (_jobs (manager sys) !! id)
}.

(** The supervisor thread has ended, by returning or by an exception. *)
Definition ended (pc : sup_pc) : bool :=
  match pc with
  | PcDone | PcRaised _ => true
  | PcStart _ _ | PcExec _ _ => false
  end.

(** The exit-code rule of the data model. *)
Definition exit_code_rule (r : JobStatus) : Prop :=
  exit_code r = None ↔ (state r = QUEUED ∨ state r = RUNNING).

(** The same rule, decided. *)
Definition exit_code_rule_holds (r : JobStatus) : bool :=
  match exit_code r with
  | None => negb (terminal (state r))
  | Some _ => terminal (state r)
  end.

(* ===================================================================== *)
(** ** Vocabulary of the statements *)
(* ===================================================================== *)

(** The string begins with a separator. *)
Definition starts_with_sep (s : string) : bool :=
  match s with
  | String c _ => Ascii.eqb c sep
  | EmptyString => false
  end.

(** The string contains a separator. *)
Fixpoint has_sep (s : string) : bool :=
  match s with
  | EmptyString => false
  | String c rest => Ascii.eqb c sep || has_sep rest
  end.

(** A component as [Path] keeps them: not empty, not ["."], without
    separator. *)
Definition component_ok (x : string) : bool :=
  keep_component x && negb (has_sep x).

(** A path as [Path] builds them. *)
Definition normal (p : Path) : Prop :=
  (path_root p = "" ∨ path_root p = "/" ∨ path_root p = "//")
  ∧ Forall (fun x => component_ok x = true) (path_tail p).

(** An override given as the empty string, read as no override. *)
Definition omit_empty (x : option string) : option string :=
  match x with
  | Some v => if str_truthy v then Some v else None
  | None => None
  end.

(** The request with its empty-string overrides left out. *)
Definition without_empty_overrides (p : JobRequest) : JobRequest :=
  mk_request (data_dir p) (output_dir p)
    (omit_empty (base_model_path p))
    (omit_empty (segment_model_name p))
    (omit_empty (inference_script p))
    (extra_args p).

(** The request with given overrides for base model, segmentation model
    and script. *)
Definition with_overrides (p : JobRequest) (base seg script : option string)
  : JobRequest :=
  mk_request (data_dir p) (output_dir p) base seg script (extra_args p).

(** What another thread finds while the supervisor of [id] is inside a
    locked block, its first [k] assignments done: the reader does not
    take the lock to read through a reference it already holds. *)
Definition inside_locked_update (jm : JobManager) (id : string)
    (ws : list attr_write) (k : nat) : option JobManager :=
  status ← _jobs jm !! id;
  Some (store_attrs status (take k ws) jm).

(** The decimal text of the code occurs in the message. *)
Definition message_includes_code (msg : option string) (code : Z) : bool :=
  match msg with
  | Some m => str_contains (str_of_int code) m
  | None => false
  end.

(* ===================================================================== *)
(** ** Scenarios *)
(* ===================================================================== *)

Definition demo_request : JobRequest :=
  mk_request "photos" "out" None None None [].

(** A host on which directories can be created and the process ends with
    [code]. *)
Definition host_exiting (code : Z) : Host :=
  mk_host 101%Z 102%Z (fun _ => None) (fun _ _ _ => Some (inl code)).

(** A host on which the process cannot be spawned. *)
Definition host_no_executable : Host :=
  mk_host 101%Z 102%Z (fun _ => None)
    (fun _ _ _ =>
       Some (inr (mk_exception "FileNotFoundError(2, 'No such file or directory')"))).


(** A request whose output directory lies under a regular file, and a
    host on which that directory, therefore, cannot be created; the
    process itself would end with 0. *)
Definition blocked_request : JobRequest :=
  mk_request "photos" "/etc/passwd/out" None None None [].

Definition host_blocked_dir : Host :=
  mk_host 101%Z 102%Z
    (fun dir =>
       if decide (dir = parse "/etc/passwd/out")
       then Some (mk_exception "NotADirectoryError(20, 'Not a directory')")
       else None)
    (fun _ _ _ => Some (inl 0%Z)).

Definition blocked_command : list string :=
  _build_command default_settings blocked_request.

Definition blocked_queued : JobManager :=
  (create_job_submit default_settings JobManager_init "job-1" 100%Z
     blocked_request).1.1.

(** The service after that submission, and after its supervisor has
    ended. *)
Definition blocked_sys_queued : System :=
  mk_system blocked_queued
    (<["job-1" := PcStart blocked_request blocked_command]> ∅).

Definition blocked_sys_raised : System :=
  mk_system blocked_queued
    (<["job-1" := PcRaised
                    (mk_exception "NotADirectoryError(20, 'Not a directory')")]>
       (threads blocked_sys_queued)).

(** One job submitted to a new manager. *)
Definition demo_submitted : JobManager * loc * list string :=
  create_job_submit default_settings JobManager_init "job-1" 100%Z demo_request.

Definition demo_queued : JobManager := demo_submitted.1.1.
Definition demo_ref : loc := demo_submitted.1.2.
Definition demo_command : list string := demo_submitted.2.

(** The same job once its supervisor has left the first locked block. *)
Definition demo_running : JobManager :=
  supervisor_upto MarkedRunning default_settings (host_exiting 0)
    demo_queued "job-1" demo_request demo_command.

Definition demo_log : Path :=
  job_log_path default_settings demo_request "job-1".

(** The service after the submission, and after the first and the second
    step of the supervisor on a host where the process ends with 0. *)
Definition demo_sys_queued : System :=
  mk_system demo_queued (<["job-1" := PcStart demo_request demo_command]> ∅).

Definition demo_sys_running : System :=
  mk_system demo_running
    (<["job-1" := PcExec demo_command demo_log]> (threads demo_sys_queued)).

Definition demo_sys_done : System :=
  mk_system
    (run_job_finish default_settings (host_exiting 0) demo_running "job-1"
       demo_command demo_log).1
    (<["job-1" := PcDone]> (threads demo_sys_running)).

(** A second submission to the finished service. *)
Definition demo_sys_second : System :=
  mk_system
    (create_job_submit default_settings (manager demo_sys_done) "job-2" 200%Z
       demo_request).1.1
    (<["job-2" := PcStart demo_request demo_command]> (threads demo_sys_done)).

(** The record of the first job once it has ended. *)
Definition demo_done_record : JobStatus :=
  mk_status "job-1" SUCCEEDED demo_command 100%Z (Some 101%Z) (Some 102%Z)
    (Some 0%Z) (Some "/opt/UP2You/out/job-1.log")
    (Some "Job finished successfully").

(** Two jobs submitted to one manager, and the outcome of running the
    supervisor of the first on a host where the process ends with 0 and
    that of the second on a host where it ends with 1, in either order. *)
Definition two_queued : JobManager :=
  (create_job_submit default_settings demo_queued "job-2" 200%Z demo_request).1.1.

Definition run_first (jm : JobManager) : JobManager :=
  (_run_job default_settings (host_exiting 0) jm "job-1" demo_request
     demo_command).1.

Definition run_second (jm : JobManager) : JobManager :=
  (_run_job default_settings (host_exiting 1) jm "job-2" demo_request
     demo_command).1.

(* ===================================================================== *)
(** ** backend/routes.py *)
(* ===================================================================== *)

(** [fastapi.HTTPException]. *)
Record HTTPException : Type := mk_http_exception {
  status_code : Z;
  detail : string
}.

Definition HTTP_404_NOT_FOUND : Z := 404.

(** [launch_job]: the route hands the request to [create_job]. *)
Definition launch_job (settings : Settings) (host : Host) (jm : JobManager)
    (id : string) (now : datetime) (request : JobRequest) (p : progress)
  : JobManager * option JobCreatedResponse :=
  create_job settings host jm id now request p.

(** [get_job]: the record found by [get_status] is returned as it is (a
    reference); [None] becomes the exception raised at lines 34-38. *)
Definition get_job (jm : JobManager) (id : string) : HTTPException + loc :=
  match get_status jm id with
  | None => inl (mk_http_exception HTTP_404_NOT_FOUND "Job not found")
  | Some status_record => inr status_record
  end.

(* ===================================================================== *)
(** ** Vocabulary of the further statements *)
(* ===================================================================== *)

(** A record as [create_job] builds it, no assignment made since. *)
Definition untouched (id : string) (r : JobStatus) : Prop :=
  r = new_status id (command r) (created_at r).

(** Which fields are present in which state, and how state and exit code
    go together. *)
Definition well_shaped (r : JobStatus) : Prop :=
  match state r with
  | QUEUED =>
      started_at r = None ∧ log_path r = None ∧ completed_at r = None
      ∧ exit_code r = None ∧ message r = None
  | RUNNING =>
      is_Some (started_at r) ∧ is_Some (log_path r) ∧ completed_at r = None
      ∧ exit_code r = None ∧ message r = None
  | SUCCEEDED =>
      is_Some (started_at r) ∧ is_Some (log_path r)
      ∧ is_Some (completed_at r) ∧ is_Some (message r)
      ∧ exit_code r = Some 0%Z
  | FAILED =>
      is_Some (started_at r) ∧ is_Some (log_path r)
      ∧ is_Some (completed_at r) ∧ is_Some (message r)
      ∧ ∃ code, exit_code r = Some code ∧ code ≠ 0%Z
  end.

(** The record of [id] agrees, field by field, with where its supervisor
    stands. *)
Definition pc_shape (settings : Settings) (id : string) (pc : sup_pc)
    (r : JobStatus) : Prop :=
  job_id r = id
  ∧ match pc with
    | PcStart payload cmd =>
        cmd = _build_command settings payload ∧ command r = cmd
        ∧ untouched id r
    | PcExec cmd log =>
        command r = cmd ∧ state r = RUNNING ∧ is_Some (started_at r)
        ∧ log_path r = Some (to_str log) ∧ completed_at r = None
        ∧ exit_code r = None ∧ message r = None
    | PcDone => terminal (state r) = true ∧ well_shaped r
    | PcRaised _ => untouched id r
    end.

Definition shape_inv (settings : Settings) (sys : System) : Prop :=
  ∀ id l, _jobs (manager sys) !! id = Some l ->
    ∃ r pc, objects (manager sys) !! l = Some r
            ∧ threads sys !! id = Some pc ∧ pc_shape settings id pc r.

(** The fields that no assignment of the supervisor touches, and those
    assigned once. *)
Definition same_identity (r r' : JobStatus) : Prop :=
  job_id r' = job_id r ∧ command r' = command r ∧ created_at r' = created_at r
  ∧ (is_Some (started_at r) -> started_at r' = started_at r)
  ∧ (is_Some (log_path r) -> log_path r' = log_path r)
  ∧ (is_Some (completed_at r) -> completed_at r' = completed_at r).

(* ===================================================================== *)
(** ** scripts/upload_to_play_store.py *)
(* ===================================================================== *)

Module PlayStore.

(** An exception of class [Exception], identified by its [str]. *)
Record Error : Type := mk_error { error_str : string }.

(** What the Google client libraries answer. Building a request and
    executing it count as one call; a response is read only through the
    key the script looks up, absent when the key is missing. *)
Record Google : Type := mk_google {
  (** [Credentials.from_service_account_file(file, scopes=...)]. *)
  from_service_account_file : string -> option Error;
  (** [build('androidpublisher', 'v3', credentials=...)]. *)
  build : option Error;
  (** [edits().insert(packageName, body={}).execute()['id']]. *)
  edits_insert : string -> Error + option string;
  (** [MediaFileUpload(file, mimetype='application/octet-stream')]. *)
  media_file_upload : string -> option Error;
  (** [edits().bundles().upload(editId, packageName, media_body)
      .execute()['versionCode']]. *)
  bundles_upload : string -> string -> string -> Error + option Z;
  (** [edits().tracks().update(editId, packageName, track, body)
      .execute()], the body releasing the version code as a draft. *)
  tracks_update : string -> string -> string -> Z -> option Error;
  (** [edits().commit(editId, packageName).execute()]. *)
  edits_commit : string -> string -> option Error;
  (** [os.remove(file)] on an existing file. *)
  os_remove : string -> option Error
}.

(** The calls made, in order. *)
Inductive call : Type :=
| CallCredentials (file : string)
| CallBuild
| CallInsert (package : string)
| CallMedia (file : string)
| CallUpload (edit package file : string)
| CallTrack (edit package track : string) (version_code : Z)
| CallCommit (edit package : string)
| CallRemove (file : string).

(** The files that exist, the lines printed and the calls made. *)
Record World : Type := mk_world {
  files : gset string;
  stdout : list string;
  calls : list call
}.

Definition print (line : string) (w : World) : World :=
  mk_world (files w) (stdout w ++ [line]) (calls w).

Definition record_call (c : call) (w : World) : World :=
  mk_world (files w) (stdout w) (calls w ++ [c]).

(** [PlayStoreUploader]; [service] tells whether the attribute is set. *)
Record PlayStoreUploader : Type := mk_uploader {
  credentials_file : string;
  package_name : string;
  service : bool;
  edit_id : option string
}.

(** [PlayStoreUploader.__init__]. *)
Definition PlayStoreUploader_init (credentials_file package_name : string)
  : PlayStoreUploader :=
  mk_uploader credentials_file package_name false None.

Definition set_service (u : PlayStoreUploader) : PlayStoreUploader :=
  mk_uploader (credentials_file u) (package_name u) true (edit_id u).

Definition set_edit_id (u : PlayStoreUploader) (id : string)
  : PlayStoreUploader :=
  mk_uploader (credentials_file u) (package_name u) (service u) (Some id).

(** The [except] branch of [authenticate]. *)
Definition authentication_failed (u : PlayStoreUploader) (w : World) (e : Error)
  : PlayStoreUploader * World * bool :=
  (u, print ("❌ Authentication failed: " +:+ error_str e) w, false).

(** [PlayStoreUploader.authenticate]. *)
Definition authenticate (api : Google) (u : PlayStoreUploader) (w : World)
  : PlayStoreUploader * World * bool :=
  let w := record_call (CallCredentials (credentials_file u)) w in
  match from_service_account_file api (credentials_file u) with
  | Some e => authentication_failed u w e
  | None =>
      let w := record_call CallBuild w in
      match build api with
      | Some e => authentication_failed u w e
      | None =>
          (set_service u, print "✅ Authentication successful" w, true)
      end
  end.

(** The [except] branch of [upload_bundle]. *)
Definition upload_failed (u : PlayStoreUploader) (w : World) (e : Error)
  : PlayStoreUploader * World * bool :=
  (u, print ("❌ Upload failed: " +:+ error_str e) w, false).

(** The [KeyError] of a missing key and the [AttributeError] of
    [self.service] being [None]. *)
Definition key_error (key : string) : Error :=
  mk_error ("'" +:+ key +:+ "'").

Definition no_service_error : Error :=
  mk_error "'NoneType' object has no attribute 'edits'".

(** [PlayStoreUploader.upload_bundle]. *)
Definition upload_bundle (api : Google) (u : PlayStoreUploader) (w : World)
    (aab_file track : string) : PlayStoreUploader * World * bool :=
  if negb (service u) then upload_failed u w no_service_error else
  let w := record_call (CallInsert (package_name u)) w in
  match edits_insert api (package_name u) with
  | inl e => upload_failed u w e
  | inr None => upload_failed u w (key_error "id")
  | inr (Some id) =>
      let u := set_edit_id u id in
      let w := print ("✅ Created edit: " +:+ id) w in
      let w := record_call (CallMedia aab_file) w in
      match media_file_upload api aab_file with
      | Some e => upload_failed u w e
      | None =>
          let w := record_call (CallUpload id (package_name u) aab_file) w in
          match bundles_upload api id (package_name u) aab_file with
          | inl e => upload_failed u w e
          | inr None => upload_failed u w (key_error "versionCode")
          | inr (Some version_code) =>
              let w :=
                print ("✅ Uploaded bundle, version code: "
                       +:+ str_of_int version_code) w in
              let w :=
                record_call
                  (CallTrack id (package_name u) track version_code) w in
              match tracks_update api id (package_name u) track version_code with
              | Some e => upload_failed u w e
              | None =>
                  let w := print ("✅ Updated track to: " +:+ track) w in
                  let w := record_call (CallCommit id (package_name u)) w in
                  match edits_commit api id (package_name u) with
                  | Some e => upload_failed u w e
                  | None =>
                      (u, print "✅ Edit committed successfully" w, true)
                  end
              end
          end
      end
  end.

(** [PlayStoreUploader.cleanup]: the exception of [os.remove], if any, is
    not caught. *)
Definition cleanup (api : Google) (u : PlayStoreUploader) (w : World)
  : World * option Error :=
  if decide (credentials_file u ∈ files w) then
    let w := record_call (CallRemove (credentials_file u)) w in
    match os_remove api (credentials_file u) with
    | Some e => (w, Some e)
    | None =>
        (mk_world (files w ∖ {[credentials_file u]}) (stdout w) (calls w), None)
    end
  else (w, None).

(** How [main] ends: by returning, by [sys.exit(code)], or by an
    exception that nothing catches. *)
Inductive ending : Type :=
| Returns
| SystemExit (code : Z)
| Uncaught (e : Error).

(** The body of the [try] statement of [main]. *)
Definition main_try (api : Google) (u : PlayStoreUploader) (w : World)
    (aab_file track : string) : PlayStoreUploader * World * ending :=
  let '(u, w, authenticated) := authenticate api u w in
  if authenticated then
    let '(u, w, uploaded) := upload_bundle api u w aab_file track in
    if uploaded then (u, print "🎉 Upload completed successfully!" w, Returns)
    else (u, print "❌ Upload failed" w, SystemExit 1)
  else (u, w, SystemExit 1).

(** [main]: the [finally] clause runs [cleanup] after the [try] body,
    however it ended; an exception of [cleanup] replaces that ending. *)
Definition main (api : Google) (getenv : string -> option string) (w : World)
  : World * ending :=
  let service_account_file := "service-account.json" in
  let package_name :=
    os_getenv getenv "PLAY_CONSOLE_PACKAGE_NAME" "com.example.digital_twin_fashion" in
  let aab_file := "app-release.aab" in
  let track := "internal" in
  if negb (bool_decide (aab_file ∈ files w)) then
    (print ("❌ AAB file not found: " +:+ aab_file) w, SystemExit 1)
  else
    let uploader := PlayStoreUploader_init service_account_file package_name in
    let '(uploader, w, pending) := main_try api uploader w aab_file track in
    match cleanup api uploader w with
    | (w, Some e) => (w, Uncaught e)
    | (w, None) => (w, pending)
    end.

(** The five calls of [upload_bundle] succeed in turn. *)
Definition upload_succeeds (api : Google) (package aab_file track : string)
  : Prop :=
  ∃ id vc,
    edits_insert api package = inr (Some id)
    ∧ media_file_upload api aab_file = None
    ∧ bundles_upload api id package aab_file = inr (Some vc)
    ∧ tracks_update api id package track vc = None
    ∧ edits_commit api id package = None.

(** The call succeeded. *)
Definition succeeded (answer : option Error) : bool :=
  match answer with
  | None => true
  | Some _ => false
  end.

(** The calls of [upload_bundle] in the order of the script, each with
    whether it succeeds; a call whose arguments come from the response
    of an earlier one is listed only when that response gave them. *)
Definition upload_stages (api : Google) (package aab_file track : string)
  : list (call * bool) :=
  match edits_insert api package with
  | inr (Some id) =>
      (CallInsert package, true)
      :: (CallMedia aab_file, succeeded (media_file_upload api aab_file))
      :: match bundles_upload api id package aab_file with
         | inr (Some vc) =>
             [(CallUpload id package aab_file, true);
              (CallTrack id package track vc,
               succeeded (tracks_update api id package track vc));
              (CallCommit id package, succeeded (edits_commit api id package))]
         | _ => [(CallUpload id package aab_file, false)]
         end
  | _ => [(CallInsert package, false)]
  end.

(** The calls made when each one is made only after all the earlier
    ones have succeeded. *)
Fixpoint until_first_failure (stages : list (call * bool)) : list call :=
  match stages with
  | [] => []
  | (c, ok) :: rest => c :: if ok then until_first_failure rest else []
  end.

(** The calls of a complete upload. *)
Definition upload_calls (package aab_file track id : string) (vc : Z)
  : list call :=
  [CallInsert package; CallMedia aab_file; CallUpload id package aab_file;
   CallTrack id package track vc; CallCommit id package].

(** A host on which everything succeeds, and one on which the bundle is
    refused. *)
Definition google_ok : Google :=
  mk_google (fun _ => None) None (fun _ => inr (Some "edit-1"))
    (fun _ => None) (fun _ _ _ => inr (Some 42%Z)) (fun _ _ _ _ => None)
    (fun _ _ => None) (fun _ => None).

Definition google_rejects_bundle : Google :=
  mk_google (fun _ => None) None (fun _ => inr (Some "edit-1"))
    (fun _ => None) (fun _ _ _ => inl (mk_error "HttpError 403"))
    (fun _ _ _ _ => None) (fun _ _ => None) (fun _ => None).

Definition world_ready : World :=
  mk_world {["app-release.aab"; "service-account.json"]} [] [].

Definition world_without_bundle : World :=
  mk_world {["service-account.json"]} [] [].

End PlayStore.

(* ===================================================================== *)
(** * Properties *)
(* ===================================================================== *)

(** ** Python helpers *)

Lemma py_or_none d : py_or None d = d.
Proof. reflexivity. Qed.

Lemma py_or_empty d : py_or (Some "") d = d.
Proof. reflexivity. Qed.

Lemma py_or_nonempty v d : v ≠ "" -> py_or (Some v) d = v.
Proof. intros Hv. destruct v; [congruence | reflexivity]. Qed.

Lemma py_or_omit_empty x d : py_or (omit_empty x) d = py_or x d.
Proof. destruct x as [[|c v]|]; reflexivity. Qed.

(** ** Paths *)

Lemma lstrip_sep_length s : (String.length (lstrip_sep s) <= String.length s)%nat.
Proof.
  induction s as [|c s IH]; simpl; [lia|].
  destruct (Ascii.eqb c sep); simpl; lia.
Qed.

Lemma lstrip_sep_relative s : starts_with_sep s = false -> lstrip_sep s = s.
Proof. destruct s as [|c s]; simpl; [done|]. by intros ->. Qed.

Lemma splitroot_relative s : starts_with_sep s = false -> splitroot s = ("", s).
Proof.
  intros Hs. unfold splitroot. rewrite (lstrip_sep_relative s Hs).
  by rewrite Nat.sub_diag.
Qed.

Lemma splitroot_absolute s :
  starts_with_sep s = true -> str_truthy (fst (splitroot s)) = true.
Proof.
  destruct s as [|c s]; simpl; [done|]. intros Hc.
  unfold splitroot. simpl. rewrite Hc.
  pose proof (lstrip_sep_length s) as Hlen.
  destruct (S (String.length s) - String.length (lstrip_sep s))%nat
    as [|[|[|n]]] eqn:Hn; simpl; try done. lia.
Qed.

(** A path is absolute exactly when its text begins with a separator. *)
Lemma is_absolute_parse value :
  is_absolute (parse value) = starts_with_sep value.
Proof.
  unfold is_absolute, parse.
  destruct (starts_with_sep value) eqn:Hs.
  - pose proof (splitroot_absolute value Hs) as Hroot.
    by destruct (splitroot value) as [root rel].
  - by rewrite (splitroot_relative value Hs).
Qed.

(** *** The text of a path denotes that path *)

Lemma split_sep_nonempty s : split_sep s ≠ [].
Proof.
  destruct s as [|c s]; simpl; [done|].
  destruct (Ascii.eqb c sep); [done|]. by destruct (split_sep s).
Qed.

Lemma split_sep_no_sep x : has_sep x = false -> split_sep x = [x].
Proof.
  induction x as [|c x IH]; simpl; [done|].
  destruct (Ascii.eqb c sep); simpl; [done|]. intros Hx. by rewrite IH.
Qed.

Lemma split_sep_app x s :
  has_sep x = false -> split_sep (x +:+ "/" +:+ s) = x :: split_sep s.
Proof.
  induction x as [|c x IH]; simpl; [done|].
  destruct (Ascii.eqb c sep); simpl; [done|]. intros Hx. by rewrite IH.
Qed.

Lemma split_sep_pieces s : Forall (fun x => has_sep x = false) (split_sep s).
Proof.
  induction s as [|c s IH]; simpl.
  - by constructor.
  - destruct (Ascii.eqb c sep) eqn:Hc.
    + by constructor.
    + destruct (split_sep s) as [|piece pieces].
      * constructor; [|done]. simpl. by rewrite Hc.
      * inversion IH as [|? ? Hpiece Hpieces]; subst.
        constructor; [|done]. simpl. by rewrite Hc.
Qed.

Lemma component_ok_inv x :
  component_ok x = true ->
  keep_component x = true ∧ has_sep x = false ∧ starts_with_sep x = false.
Proof.
  unfold component_ok. intros [Hkeep Hsep%negb_true_iff]%andb_true_iff.
  repeat split; [done..|].
  destruct x as [|c x]; simpl in *; [done|]. by destruct (Ascii.eqb c sep).
Qed.

Lemma split_join tail :
  tail ≠ [] -> Forall (fun x => component_ok x = true) tail ->
  split_sep (join_sep tail) = tail.
Proof.
  induction tail as [|x tail IH]; [done|]. intros _ Hok.
  inversion Hok as [|? ? Hx Htail]; subst.
  destruct (component_ok_inv x Hx) as (_ & Hsep & _).
  destruct tail as [|y tail]; simpl.
  - by apply split_sep_no_sep.
  - rewrite split_sep_app by done. f_equal. by apply IH.
Qed.

Lemma filter_keep_components tail :
  Forall (fun x => component_ok x = true) tail ->
  filter (fun x => keep_component x = true) tail = tail.
Proof.
  induction 1 as [|x tail Hx _ IH]; [done|].
  destruct (component_ok_inv x Hx) as (Hkeep & _).
  rewrite filter_cons_True by done. by rewrite IH.
Qed.

Lemma join_sep_relative tail :
  Forall (fun x => component_ok x = true) tail ->
  starts_with_sep (join_sep tail) = false.
Proof.
  destruct 1 as [|x tail Hx _]; [done|].
  destruct (component_ok_inv x Hx) as (Hkeep & _ & Hstart).
  destruct x as [|c x]; [done|]. by destruct tail.
Qed.

Lemma splitroot_one s :
  starts_with_sep s = false -> splitroot ("/" +:+ s) = ("/", s).
Proof.
  intros Hs. change ("/" +:+ s) with (String sep s).
  unfold splitroot. simpl. rewrite (lstrip_sep_relative s Hs).
  by replace (S (String.length s) - String.length s)%nat with 1%nat by lia.
Qed.

Lemma splitroot_two s :
  starts_with_sep s = false -> splitroot ("//" +:+ s) = ("//", s).
Proof.
  intros Hs. change ("//" +:+ s) with (String sep (String sep s)).
  unfold splitroot. simpl. rewrite (lstrip_sep_relative s Hs).
  by replace (S (S (String.length s)) - String.length s)%nat with 2%nat by lia.
Qed.

Lemma parse_tail_of_join tail :
  Forall (fun x => component_ok x = true) tail ->
  filter (fun x => keep_component x = true) (split_sep (join_sep tail)) = tail.
Proof.
  intros Hok. destruct tail as [|x tail]; [done|].
  rewrite split_join by done. by apply filter_keep_components.
Qed.

(** Parsing yields a path in normal form. *)
Lemma parse_normal value : normal (parse value).
Proof.
  unfold parse, normal.
  destruct (splitroot value) as [root rel] eqn:Hroot. simpl. split.
  - unfold splitroot in Hroot.
    destruct (String.length value - String.length (lstrip_sep value))%nat
      as [|[|[|n]]]; injection Hroot as <- <-; auto.
  - apply Forall_forall. intros x [Hkeep Hx]%list_elem_of_filter.
    unfold component_ok. rewrite Hkeep. simpl. apply negb_true_iff.
    by apply (proj1 (Forall_forall _ _) (split_sep_pieces rel)).
Qed.

(** The text of a normal path parses back to it. *)
Lemma parse_to_str p : normal p -> parse (to_str p) = p.
Proof.
  destruct p as [root tail]. unfold normal. cbn [path_root path_tail].
  intros [Hroot Hok].
  pose proof (join_sep_relative tail Hok) as Hrel.
  pose proof (parse_tail_of_join tail Hok) as Htail.
  unfold to_str, parse.
  destruct Hroot as [->|[->| ->]]; cbn [path_root path_tail str_truthy].
  - destruct tail as [|x tail]; [done|].
    rewrite (splitroot_relative _ Hrel). by rewrite Htail.
  - rewrite (splitroot_one _ Hrel). by rewrite Htail.
  - rewrite (splitroot_two _ Hrel). by rewrite Htail.
Qed.

(** Normalisation happens once: the text of a parsed path denotes the
    same path. *)
Lemma parse_idempotent value : parse (to_str (parse value)) = parse value.
Proof. apply parse_to_str, parse_normal. Qed.

(** The text of an absolute path is resolved to itself. *)
Lemma resolve_path_normal_text settings value :
  starts_with_sep value = true ->
  to_str (resolve_path settings (to_str (parse value))) = to_str (parse value).
Proof.
  intros Hs. unfold resolve_path.
  rewrite parse_idempotent, is_absolute_parse, Hs. done.
Qed.

Lemma command_positions settings payload :
  let cmd := _build_command settings payload in
  cmd !! 0%nat = Some (python_executable settings)
  ∧ cmd !! 1%nat = Some (to_str (inference_script_path settings (inference_script payload)))
  ∧ cmd !! 3%nat = Some (to_str (resolve_path settings (data_dir payload)))
  ∧ cmd !! 5%nat = Some (to_str (resolve_path settings (output_dir payload)))
  ∧ cmd !! 7%nat = Some (py_or (base_model_path payload) (default_base_model_path settings))
  ∧ cmd !! 9%nat = Some (py_or (segment_model_name payload) (default_segment_model_name settings)).
Proof.
  unfold _build_command, extend, _resolve_path.
  destruct (extra_args payload); simpl; repeat split; reflexivity.
Qed.

(** ** The command builder *)

Lemma build_command_flat settings payload :
  _build_command settings payload =
    ([ python_executable settings;
       to_str (inference_script_path settings (inference_script payload));
       "--data_dir"; to_str (resolve_path settings (data_dir payload));
       "--output_dir"; to_str (resolve_path settings (output_dir payload));
       "--base_model_path";
       py_or (base_model_path payload) (default_base_model_path settings);
       "--segment_model_name";
       py_or (segment_model_name payload) (default_segment_model_name settings) ]
     ++ extra_args payload)%list.
Proof.
  unfold _build_command, extend, _resolve_path.
  destruct (extra_args payload) as [|a args]; simpl; reflexivity.
Qed.

(** C1: for every request, [_build_command] yields exactly the executable,
    the script path, the four named flags each followed by its value
    (resolved data directory, resolved output directory, base model,
    segmentation model), and then the extra arguments as given, in their
    order; nothing else, nothing reordered. *)
Theorem build_command_exact settings payload :
  _build_command settings payload =
    ([ python_executable settings;
       to_str (inference_script_path settings (inference_script payload));
       "--data_dir"; to_str (resolve_path settings (data_dir payload));
       "--output_dir"; to_str (resolve_path settings (output_dir payload));
       "--base_model_path";
       py_or (base_model_path payload) (default_base_model_path settings);
       "--segment_model_name";
       py_or (segment_model_name payload) (default_segment_model_name settings) ]
     ++ extra_args payload)%list
  ∧ length (_build_command settings payload) = (10 + length (extra_args payload))%nat
  ∧ drop 10 (_build_command settings payload) = extra_args payload.
Proof.
  unfold _build_command, extend, _resolve_path.
  destruct (extra_args payload) as [|arg args] eqn:Hextra; cbn [list_truthy].
  - (* no extra argument: the guarded [extend] is skipped *)
    rewrite app_nil_r. repeat split.
  - (* the extra arguments are appended after the ten fixed elements *)
    rewrite <- !app_assoc. repeat split.
Qed.

(** The default request: no override, no extra argument. *)
Example build_command_default :
  _build_command default_settings (mk_request "a" "b" None None None [])
  = ["python"; "/opt/UP2You/inference_low_gpu.py";
     "--data_dir"; "/opt/UP2You/a"; "--output_dir"; "/opt/UP2You/b";
     "--base_model_path"; "stabilityai/stable-diffusion-2-1-base";
     "--segment_model_name"; "ZhengPeng7/BiRefNet"].
Proof. reflexivity. Qed.

Example build_command_extra_args :
  _build_command default_settings
    (mk_request "a" "b" None None None ["--x"; "1"])
  = (_build_command default_settings (mk_request "a" "b" None None None [])
     ++ ["--x"; "1"])%list.
Proof. reflexivity. Qed.

(** C8: a path text that begins with a separator is absolute and is
    returned as the path it denotes, without the root directory, and the
    text of that path is in turn resolved to itself; any other text is
    relative and is returned joined under the configured root directory.
    The command's data directory, output directory and script path all go
    through this resolution. *)
Theorem resolve_path_absolute_or_joined settings value :
  (starts_with_sep value = true ->
     is_absolute (parse value) = true
     ∧ resolve_path settings value = parse value
     ∧ to_str (resolve_path settings (to_str (parse value)))
       = to_str (parse value))
  ∧ (starts_with_sep value = false ->
     is_absolute (parse value) = false
     ∧ resolve_path settings value = joinpath (up2you_repo_path settings) (parse value)
     ∧ path_root (resolve_path settings value) = path_root (up2you_repo_path settings)
     ∧ path_tail (resolve_path settings value)
       = (path_tail (up2you_repo_path settings) ++ path_tail (parse value))%list)
  ∧ (∀ payload,
       _build_command settings payload !! 3%nat
         = Some (to_str (resolve_path settings (data_dir payload)))
       ∧ _build_command settings payload !! 5%nat
         = Some (to_str (resolve_path settings (output_dir payload)))
       ∧ _build_command settings payload !! 1%nat
         = Some (to_str (resolve_path settings
                   (py_or (inference_script payload)
                          (default_inference_script settings))))).
Proof.
  split; [|split].
  - intros Hs. split; [by rewrite is_absolute_parse|].
    split; [|by apply resolve_path_normal_text].
    unfold resolve_path. by rewrite is_absolute_parse, Hs.
  - intros Hs. unfold resolve_path, joinpath.
    rewrite !is_absolute_parse, Hs. done.
  - intros payload.
    destruct (command_positions settings payload) as (_ & H1 & H3 & H5 & _).
    done.
Qed.

Lemma resolve_path_absolute_or_joined_witness :
  starts_with_sep "/data/photos" = true
  ∧ starts_with_sep "photos" = false
  ∧ to_str (resolve_path default_settings "/data/photos") = "/data/photos"
  ∧ to_str (resolve_path default_settings "photos") = "/opt/UP2You/photos".
Proof.
  pose proof (resolve_path_absolute_or_joined default_settings "/data/photos")
    as (Habs & _ & _).
  pose proof (resolve_path_absolute_or_joined default_settings "photos")
    as (_ & Hrel & _).
  destruct (Habs eq_refl) as (_ & -> & _).
  destruct (Hrel eq_refl) as (_ & -> & _).
  repeat split; reflexivity.
Defined.

(** C9, as stated, fails: an override supplied as the empty string is not
    the value used; the configured default is. *)
Lemma override_used_exactly_counterexample :
  ¬ (∀ settings payload v,
       base_model_path payload = Some v ->
       _build_command settings payload !! 7%nat = Some v).
Proof.
  intros Hclaim.
  specialize (Hclaim default_settings
                (mk_request "a" "b" (Some "") None None []) "" eq_refl).
  vm_compute in Hclaim. discriminate Hclaim.
Qed.

(** C9 (amended): a non-empty override for the script, the base model or
    the segmentation model is the value used at its position (the script
    through path resolution); without an override the configured default
    is used there. *)
Theorem overrides_replace_defaults settings payload :
  (∀ v, inference_script payload = Some v -> v ≠ "" ->
        _build_command settings payload !! 1%nat
          = Some (to_str (resolve_path settings v)))
  ∧ (∀ v, base_model_path payload = Some v -> v ≠ "" ->
        _build_command settings payload !! 7%nat = Some v)
  ∧ (∀ v, segment_model_name payload = Some v -> v ≠ "" ->
        _build_command settings payload !! 9%nat = Some v)
  ∧ (inference_script payload = None ->
        _build_command settings payload !! 1%nat
          = Some (to_str (resolve_path settings (default_inference_script settings))))
  ∧ (base_model_path payload = None ->
        _build_command settings payload !! 7%nat
          = Some (default_base_model_path settings))
  ∧ (segment_model_name payload = None ->
        _build_command settings payload !! 9%nat
          = Some (default_segment_model_name settings)).
Proof.
  destruct (command_positions settings payload) as (_ & H1 & _ & _ & H7 & H9).
  cbv zeta in H1, H7, H9. unfold inference_script_path in H1.
  repeat split.
  - intros v Hv Hne. by rewrite H1, Hv, py_or_nonempty.
  - intros v Hv Hne. by rewrite H7, Hv, py_or_nonempty.
  - intros v Hv Hne. by rewrite H9, Hv, py_or_nonempty.
  - intros Hv. by rewrite H1, Hv.
  - intros Hv. by rewrite H7, Hv.
  - intros Hv. by rewrite H9, Hv.
Qed.

Lemma overrides_replace_defaults_witness :
  let overridden :=
    mk_request "a" "b" (Some "sd-turbo") (Some "u2net") (Some "/srv/run.py") [] in
  let plain := mk_request "a" "b" None None None [] in
  _build_command default_settings overridden !! 1%nat = Some "/srv/run.py"
  ∧ _build_command default_settings overridden !! 7%nat = Some "sd-turbo"
  ∧ _build_command default_settings overridden !! 9%nat = Some "u2net"
  ∧ _build_command default_settings plain !! 1%nat
      = Some "/opt/UP2You/inference_low_gpu.py"
  ∧ _build_command default_settings plain !! 7%nat
      = Some "stabilityai/stable-diffusion-2-1-base"
  ∧ _build_command default_settings plain !! 9%nat = Some "ZhengPeng7/BiRefNet".
Proof.
  intros overridden plain.
  destruct (overrides_replace_defaults default_settings overridden)
    as (Hs & Hb & Hg & _).
  destruct (overrides_replace_defaults default_settings plain)
    as (_ & _ & _ & Hs' & Hb' & Hg').
  split; [exact (Hs "/srv/run.py" eq_refl ltac:(discriminate))|].
  split; [exact (Hb "sd-turbo" eq_refl ltac:(discriminate))|].
  split; [exact (Hg "u2net" eq_refl ltac:(discriminate))|].
  split; [exact (Hs' eq_refl)|].
  split; [exact (Hb' eq_refl) | exact (Hg' eq_refl)].
Defined.

(** C10: an override given as the empty string, for the base model, the
    segmentation model or the script, yields the very command obtained
    when that override is omitted, with the configured default at its
    position; the same holds for any combination of the three. *)
Theorem empty_override_is_omitted settings payload base seg script :
  _build_command settings (with_overrides payload (Some "") seg script)
    = _build_command settings (with_overrides payload None seg script)
  ∧ _build_command settings (with_overrides payload base (Some "") script)
    = _build_command settings (with_overrides payload base None script)
  ∧ _build_command settings (with_overrides payload base seg (Some ""))
    = _build_command settings (with_overrides payload base seg None)
  ∧ _build_command settings (with_overrides payload (Some "") seg script) !! 7%nat
    = Some (default_base_model_path settings)
  ∧ _build_command settings (with_overrides payload base (Some "") script) !! 9%nat
    = Some (default_segment_model_name settings)
  ∧ _build_command settings (with_overrides payload base seg (Some "")) !! 1%nat
    = Some (to_str (resolve_path settings (default_inference_script settings)))
  ∧ _build_command settings payload
    = _build_command settings (without_empty_overrides payload).
Proof.
  repeat split.
  - destruct (command_positions settings
                (with_overrides payload (Some "") seg script))
      as (_ & _ & _ & _ & H7 & _). exact H7.
  - destruct (command_positions settings
                (with_overrides payload base (Some "") script))
      as (_ & _ & _ & _ & _ & H9). exact H9.
  - destruct (command_positions settings
                (with_overrides payload base seg (Some "")))
      as (_ & H1 & _). exact H1.
  - rewrite !build_command_flat.
    unfold inference_script_path. simpl.
    by rewrite !py_or_omit_empty.
Qed.

(** ** The store under in-place mutation *)

Lemma store_attrs_jobs l ws jm : _jobs (store_attrs l ws jm) = _jobs jm.
Proof.
  unfold store_attrs. revert jm.
  induction ws as [|w ws IH]; intros jm; simpl; [done|]. by rewrite IH.
Qed.

Lemma store_attrs_objects l ws jm :
  objects (store_attrs l ws jm) = alter (setattrs ws) l (objects jm).
Proof.
  revert jm. induction ws as [|w ws IH]; intros jm.
  - simpl. apply map_eq. intros l'. rewrite lookup_alter.
    case_decide; subst; [|done]. destruct (objects jm !! l'); reflexivity.
  - change (store_attrs l (w :: ws) jm)
      with (store_attrs l ws (store_attr l jm w)).
    rewrite IH.
    change (setattrs (w :: ws)) with (setattrs ws ∘ setattr w).
    by rewrite <-alter_alter_eq.
Qed.

Lemma deref_store_attrs l ws jm :
  deref (store_attrs l ws jm) l = setattrs ws <$> deref jm l.
Proof. unfold deref. rewrite store_attrs_objects, lookup_alter. by case_decide. Qed.

Lemma deref_store_attrs_ne l l' ws jm :
  l ≠ l' -> deref (store_attrs l ws jm) l' = deref jm l'.
Proof.
  intros Hne. unfold deref. rewrite store_attrs_objects, lookup_alter.
  by case_decide.
Qed.

(** A locked block changes the one object the dictionary refers to, and
    leaves the dictionary as it was. *)
Lemma locked_update_inv jm id ws jm' :
  locked_update jm id ws = Some jm' ->
  ∃ l, _jobs jm !! id = Some l
       ∧ jm' = mk_manager (alter (setattrs ws) l (objects jm)) (_jobs jm).
Proof.
  unfold locked_update. destruct (_jobs jm !! id) as [l|] eqn:Hl; [|done].
  intros [= <-]. exists l. split; [done|].
  rewrite store_attrs_objects, store_attrs_jobs. f_equal.
  by apply insert_id.
Qed.

Lemma locked_update_some jm id ws l :
  _jobs jm !! id = Some l ->
  locked_update jm id ws
    = Some (mk_manager (alter (setattrs ws) l (objects jm)) (_jobs jm)).
Proof.
  intros Hl. unfold locked_update. rewrite Hl.
  rewrite store_attrs_objects, store_attrs_jobs. do 2 f_equal.
  by apply insert_id.
Qed.

Lemma locked_update_record jm id ws r :
  record_of jm id = Some r ->
  ∃ jm', locked_update jm id ws = Some jm'
         ∧ record_of jm' id = Some (setattrs ws r)
         ∧ _jobs jm' = _jobs jm.
Proof.
  unfold record_of, get_status, deref.
  destruct (_jobs jm !! id) as [l|] eqn:Hl; simpl; [|done]. intros Hr.
  eexists. split; [by apply locked_update_some|]. simpl.
  rewrite Hl. simpl. rewrite lookup_alter. case_decide; [|done].
  by rewrite Hr.
Qed.

(** ** The supervisor, run from start to end *)

Lemma run_job_begin_inv settings host jm id payload jm' log :
  run_job_begin settings host jm id payload = inl (jm', log) ->
  ∃ l, _jobs jm !! id = Some l
       ∧ jm' = mk_manager
                 (alter (setattrs (running_writes (clock_start host) log)) l
                    (objects jm))
                 (_jobs jm).
Proof.
  unfold run_job_begin.
  destruct (mkdir host _); [done|].
  destruct (locked_update jm id _) as [jm1|] eqn:Hupd; [|done].
  intros [= <- <-]. by apply locked_update_inv.
Qed.

Lemma run_job_finish_inv settings host jm id cmd log jm' out :
  run_job_finish settings host jm id cmd log = (jm', out) ->
  (_jobs jm !! id = None ∧ jm' = jm ∧ out = Raised (KeyError id))
  ∨ (∃ l t code msg,
      _jobs jm !! id = Some l ∧ out = Returned
      ∧ jm' = mk_manager
                (alter (setattrs (final_writes t code msg)) l (objects jm))
                (_jobs jm))
  ∨ (jm' = jm ∧ out = Blocked).
Proof.
  unfold run_job_finish.
  destruct (run_process host cmd _ log) as [result|];
    [|intros [= <- <-]; by right; right].
  destruct (supervise result) as [code msg].
  destruct (locked_update jm id _) as [jm1|] eqn:Hupd.
  - intros [= <- <-]. right; left.
    destruct (locked_update_inv _ _ _ _ Hupd) as (l & Hl & ->).
    by exists l, (clock_finish host), code, msg.
  - intros [= <- <-]. left. split; [|done].
    unfold locked_update in Hupd. by destruct (_jobs jm !! id).
Qed.

(** Once the log directory can be created and the process has ended,
    [_run_job] returns, and the stored record has received the
    assignments of both locked blocks. *)
Lemma run_job_returns settings host jm id payload cmd r result :
  record_of jm id = Some r ->
  mkdir host (parent (job_log_path settings payload id)) = None ->
  run_process host cmd (to_str (up2you_repo_path settings))
    (job_log_path settings payload id) = Some result ->
  ∃ jm',
    _run_job settings host jm id payload cmd = (jm', Returned)
    ∧ _jobs jm' = _jobs jm
    ∧ record_of jm' id =
        Some (setattrs (final_writes (clock_finish host)
                          (supervise result).1 (supervise result).2)
                (setattrs (running_writes (clock_start host)
                             (job_log_path settings payload id)) r)).
Proof.
  intros Hr Hmk Hrun. unfold _run_job, run_job_begin. rewrite Hmk.
  destruct (locked_update_record jm id
              (running_writes (clock_start host) (job_log_path settings payload id))
              r Hr) as (jm1 & -> & Hr1 & Hj1).
  unfold run_job_finish. rewrite Hrun.
  destruct (supervise result) as [code msg] eqn:Hsup.
  destruct (locked_update_record jm1 id
              (final_writes (clock_finish host) code msg) _ Hr1)
    as (jm2 & -> & Hr2 & Hj2).
  exists jm2. split; [done|]. split; [congruence|]. exact Hr2.
Qed.

(** A failure of directory creation leaves [_run_job] by an exception,
    before the first locked block: nothing is recorded. *)
Lemma run_job_mkdir_raises settings host jm id payload cmd exc :
  mkdir host (parent (job_log_path settings payload id)) = Some exc ->
  _run_job settings host jm id payload cmd = (jm, Raised exc).
Proof. intros Hmk. unfold _run_job, run_job_begin. by rewrite Hmk. Qed.

(** A failure of [open], [Popen] or [wait] is caught: the record ends
    [FAILED] with exit code [-1] and the text of the exception. *)
Lemma run_job_contains_process_failure settings host jm id payload cmd r exc :
  record_of jm id = Some r ->
  mkdir host (parent (job_log_path settings payload id)) = None ->
  run_process host cmd (to_str (up2you_repo_path settings))
    (job_log_path settings payload id) = Some (inr exc) ->
  ∃ jm' r',
    _run_job settings host jm id payload cmd = (jm', Returned)
    ∧ record_of jm' id = Some r'
    ∧ state r' = FAILED
    ∧ exit_code r' = Some (-1)%Z
    ∧ message r' = Some ("Job crashed with error: " +:+ exc_repr exc).
Proof.
  intros Hr Hmk Hrun.
  destruct (run_job_returns settings host jm id payload cmd r _ Hr Hmk Hrun)
    as (jm' & Hjob & _ & Hrec).
  simpl in Hrec.
  eexists _, _. split; [exact Hjob|]. split; [exact Hrec|]. done.
Qed.

(** Once the log directory can be created and the process has ended,
    in whatever way, the job is in a terminal state, with an exit code
    and a message. *)
Lemma run_job_reaches_terminal settings host jm id payload cmd r :
  record_of jm id = Some r ->
  mkdir host (parent (job_log_path settings payload id)) = None ->
  is_Some (run_process host cmd (to_str (up2you_repo_path settings))
             (job_log_path settings payload id)) ->
  ∃ jm' r',
    _run_job settings host jm id payload cmd = (jm', Returned)
    ∧ record_of jm' id = Some r'
    ∧ terminal (state r') = true
    ∧ is_Some (exit_code r') ∧ is_Some (message r').
Proof.
  intros Hr Hmk [result Hrun].
  destruct (run_job_returns settings host jm id payload cmd r _ Hr Hmk Hrun)
    as (jm' & Hjob & _ & Hrec).
  destruct (supervise result) as [code msg]. simpl in Hrec.
  eexists _, _. split; [exact Hjob|]. split; [exact Hrec|]. simpl.
  split; [by destruct (code =? 0)%Z|]. split; by eexists.
Qed.

(** C5, as stated, fails: for exit code 1 the recorded message is
    ["Job failed"], which does not include the code. *)
Lemma failure_message_counterexample :
  ¬ (∀ code jm r, (code ≠ 0)%Z ->
       _run_job default_settings (host_exiting code) demo_queued "job-1"
         demo_request demo_command = (jm, Returned) ->
       record_of jm "job-1" = Some r ->
       message_includes_code (message r) code = true).
Proof.
  intros Hclaim.
  destruct (_run_job default_settings (host_exiting 1) demo_queued "job-1"
              demo_request demo_command) as [jm out] eqn:Hrun.
  vm_compute in Hrun. injection Hrun as <- <-.
  specialize (Hclaim 1%Z _ _ ltac:(lia) eq_refl eq_refl).
  vm_compute in Hclaim. discriminate Hclaim.
Qed.

(** C5 (amended): when the process ends with an exit code, the supervisor
    returns and the stored record carries that code; code 0 gives
    [SUCCEEDED] with the message ["Job finished successfully"], any other
    code gives [FAILED] with the fixed message ["Job failed"]. *)
Theorem exit_code_classification settings host jm id payload cmd r code :
  record_of jm id = Some r ->
  mkdir host (parent (job_log_path settings payload id)) = None ->
  run_process host cmd (to_str (up2you_repo_path settings))
    (job_log_path settings payload id) = Some (inl code) ->
  ∃ jm' r',
    _run_job settings host jm id payload cmd = (jm', Returned)
    ∧ record_of jm' id = Some r'
    ∧ exit_code r' = Some code
    ∧ (code = 0%Z ->
         state r' = SUCCEEDED ∧ message r' = Some "Job finished successfully")
    ∧ (code ≠ 0%Z -> state r' = FAILED ∧ message r' = Some "Job failed").
Proof.
  intros Hr Hmk Hrun.
  destruct (run_job_returns settings host jm id payload cmd r _ Hr Hmk Hrun)
    as (jm' & Hjob & _ & Hrec).
  simpl in Hrec.
  eexists _, _. split; [exact Hjob|]. split; [exact Hrec|].
  split; [done|]. simpl. split.
  - by intros ->.
  - intros Hne. apply Z.eqb_neq in Hne. by rewrite Hne.
Qed.

Lemma exit_code_classification_witness :
  ∃ jm r,
    _run_job default_settings (host_exiting 3) demo_queued "job-1"
      demo_request demo_command = (jm, Returned)
    ∧ record_of jm "job-1" = Some r
    ∧ exit_code r = Some 3%Z
    ∧ state r = FAILED ∧ message r = Some "Job failed".
Proof.
  destruct (exit_code_classification default_settings (host_exiting 3)
              demo_queued "job-1" demo_request demo_command
              (new_status "job-1" demo_command 100%Z) 3%Z)
    as (jm & r & Hjob & Hrec & Hcode & _ & Hfail).
  - vm_compute. reflexivity.
  - reflexivity.
  - reflexivity.
  - exists jm, r. destruct (Hfail ltac:(lia)) as [Hst Hmsg]. done.
Defined.

(** *** Scenarios of the supervisor *)

(** An executable that does not exist: the job ends [FAILED], with exit
    code [-1] and the text of the exception. *)
Example missing_executable_fails :
  record_of
    (_run_job default_settings host_no_executable demo_queued "job-1"
       demo_request demo_command).1 "job-1"
  = Some (mk_status "job-1" FAILED demo_command 100%Z (Some 101%Z)
            (Some 102%Z) (Some (-1)%Z) (Some "/opt/UP2You/out/job-1.log")
            (Some "Job crashed with error: FileNotFoundError(2, 'No such file or directory')")).
Proof. vm_compute. reflexivity. Qed.

(** Two jobs, one ending with 0 and one with 1: whichever supervisor
    runs first, the records end [SUCCEEDED] with 0 and [FAILED] with 1. *)
Example two_jobs_either_order :
  run_second (run_first two_queued) = run_first (run_second two_queued)
  ∧ (state <$> record_of (run_second (run_first two_queued)) "job-1",
     exit_code <$> record_of (run_second (run_first two_queued)) "job-1")
    = (Some SUCCEEDED, Some (Some 0%Z))
  ∧ (state <$> record_of (run_second (run_first two_queued)) "job-2",
     exit_code <$> record_of (run_second (run_first two_queued)) "job-2")
    = (Some FAILED, Some (Some 1%Z)).
Proof. repeat split; vm_compute; reflexivity. Qed.

(** ** Status queries and the submission response *)

(** C3, as stated, fails: [get_status] hands out the stored object, so
    the final update of the supervisor changes what a reader obtained
    earlier. *)
Lemma snapshot_independence_counterexample :
  ¬ (∀ jm id l ws jm',
       get_status jm id = Some l ->
       locked_update jm id ws = Some jm' ->
       deref jm' l = deref jm l).
Proof.
  intros Hclaim.
  destruct (locked_update demo_running "job-1"
              (final_writes 102%Z 0%Z "Job finished successfully"))
    as [jm'|] eqn:Hupd; [|vm_compute in Hupd; discriminate Hupd].
  specialize (Hclaim demo_running "job-1" demo_ref _ jm' eq_refl Hupd).
  vm_compute in Hupd. injection Hupd as <-.
  vm_compute in Hclaim. discriminate Hclaim.
Qed.

(** C3 (amended): [get_status] returns the reference held by the
    dictionary, or nothing for an unknown identifier; what is read
    through that reference is the stored record, also after a later
    update by the supervisor, whose assignments are then visible through
    the reference returned before. *)
Theorem get_status_shares_stored_record jm id :
  (get_status jm id = None ↔ _jobs jm !! id = None)
  ∧ ∀ l, get_status jm id = Some l ->
      record_of jm id = deref jm l
      ∧ ∀ ws jm', locked_update jm id ws = Some jm' ->
          get_status jm' id = Some l
          ∧ deref jm' l = setattrs ws <$> deref jm l
          ∧ record_of jm' id = deref jm' l.
Proof.
  split; [done|]. intros l Hl. unfold record_of. rewrite Hl. split; [done|].
  intros ws jm' Hupd.
  destruct (locked_update_inv jm id ws jm' Hupd) as (l' & Hl' & ->).
  unfold get_status in *. simpl. rewrite Hl. simpl.
  assert (l' = l) as -> by congruence.
  unfold deref. simpl. rewrite lookup_alter. by case_decide.
Qed.

Lemma get_status_shares_stored_record_witness :
  ∃ jm',
    locked_update demo_running "job-1"
      (final_writes 102%Z 0%Z "Job finished successfully") = Some jm'
    ∧ get_status jm' "job-1" = Some demo_ref
    ∧ state <$> deref demo_running demo_ref = Some RUNNING
    ∧ state <$> deref jm' demo_ref = Some SUCCEEDED.
Proof.
  destruct (locked_update demo_running "job-1"
              (final_writes 102%Z 0%Z "Job finished successfully"))
    as [jm'|] eqn:Hupd; [|vm_compute in Hupd; discriminate Hupd].
  exists jm'. split; [reflexivity|].
  destruct (get_status_shares_stored_record demo_running "job-1") as [_ Hshare].
  destruct (Hshare demo_ref eq_refl) as [_ Hlater].
  destruct (Hlater _ jm' Hupd) as (Hget & Hderef & _).
  split; [exact Hget|]. split; [reflexivity|].
  rewrite Hderef. reflexivity.
Defined.

(** When the supervisor has not reached its first locked block, the
    response of [create_job] reports [QUEUED]. *)
Lemma create_job_before_supervisor settings host jm id now payload :
  (create_job settings host jm id now payload NotStarted).2
    = Some (mk_created id QUEUED (_build_command settings payload) now).
Proof.
  unfold create_job, create_job_submit, create_job_respond, deref. simpl.
  by rewrite lookup_insert_eq.
Qed.

(** However far the supervisor has got, the response carries the job
    identifier, the built command and the creation time; only its state
    is read from the shared record. *)
Lemma create_job_response_fields settings host jm id now payload p :
  ∃ r,
    deref (create_job settings host jm id now payload p).1
      (fresh (dom (objects jm))) = Some r
    ∧ (create_job settings host jm id now payload p).2
      = Some (mk_created id (state r) (_build_command settings payload) now).
Proof.
  unfold create_job, create_job_submit, create_job_respond. cbv zeta.
  set (status := fresh (dom (objects jm))).
  set (cmd := _build_command settings payload).
  set (jm1 := mk_manager (<[status := new_status id cmd now]> (objects jm))
                (<[id := status]> (_jobs jm))).
  assert (is_Some (deref (supervisor_upto p settings host jm1 id payload cmd)
                     status)) as [r Hr].
  { assert (deref jm1 status = Some (new_status id cmd now)) as Hnew
      by apply lookup_insert_eq.
    assert (∀ ws l, is_Some (deref (mk_manager
              (alter (setattrs ws) l (objects jm1)) (_jobs jm1)) status))
      as Halter.
    { intros ws l. unfold deref in *. simpl. rewrite lookup_alter.
      case_decide; subst; rewrite ?lookup_insert_eq; by eexists. }
    destruct p; simpl.
    - by eexists.
    - destruct (run_job_begin settings host jm1 id payload)
        as [[jm2 log]|exc] eqn:Hbegin; [|by eexists].
      destruct (run_job_begin_inv _ _ _ _ _ _ _ Hbegin) as (l & _ & ->).
      apply Halter.
    - unfold _run_job.
      destruct (run_job_begin settings host jm1 id payload)
        as [[jm2 log]|exc] eqn:Hbegin; [|by eexists].
      destruct (run_job_begin_inv _ _ _ _ _ _ _ Hbegin) as (l & _ & ->).
      destruct (run_job_finish settings host _ id cmd log) as [jm3 out] eqn:Hfin.
      destruct (run_job_finish_inv _ _ _ _ _ _ _ _ Hfin)
        as [(_ & -> & _)|[(l' & t & code & msg & _ & _ & ->)|(-> & _)]];
        simpl.
      + apply Halter.
      + unfold deref in *. simpl. rewrite !lookup_alter.
        repeat case_decide; subst; rewrite ?lookup_insert_eq; by eexists.
      + apply Halter. }
  simpl. exists r. split; [exact Hr|]. by rewrite Hr.
Qed.

(** C4: the claim fails when the supervisor thread is scheduled before
    line 43. The response reads [status.state] from the object shared
    with that thread: if the first locked block has run it reports
    [RUNNING], and if the whole job has run it reports [SUCCEEDED], not
    [QUEUED]. *)
Theorem created_response_reads_live_state :
  (create_job default_settings (host_exiting 0) JobManager_init "job-1"
     100%Z demo_request MarkedRunning).2
    = Some (mk_created "job-1" RUNNING demo_command 100%Z)
  ∧ (create_job default_settings (host_exiting 0) JobManager_init "job-1"
       100%Z demo_request Finished).2
    = Some (mk_created "job-1" SUCCEEDED demo_command 100%Z).
Proof. split; vm_compute; reflexivity. Qed.

(** ** The life cycle of a record *)

Lemma running_writes_state t log r :
  state (setattrs (running_writes t log) r) = RUNNING
  ∧ exit_code (setattrs (running_writes t log) r) = exit_code r.
Proof. done. Qed.

Lemma final_writes_state t code msg r :
  terminal (state (setattrs (final_writes t code msg) r)) = true
  ∧ exit_code (setattrs (final_writes t code msg) r) = Some code.
Proof. split; [|done]. simpl. by destruct (code =? 0)%Z. Qed.

(** Reading a record after an update of the object at [l]. *)
Lemma record_of_alter jm f l id :
  record_of (mk_manager (alter f l (objects jm)) (_jobs jm)) id
  = match _jobs jm !! id with
    | Some l' => if decide (l = l') then f <$> deref jm l' else deref jm l'
    | None => None
    end.
Proof.
  unfold record_of, get_status, deref. simpl.
  destruct (_jobs jm !! id) as [l'|]; simpl; [|done].
  rewrite lookup_alter. case_decide; by subst.
Qed.

Section Lifecycle.

Variable settings : Settings.

Lemma initial_inv : sys_inv initial.
Proof. split; simpl; intros *; by rewrite lookup_empty. Qed.

(** A new object is none of those the dictionary refers to. *)
Lemma fresh_not_stored sys id :
  sys_inv sys ->
  _jobs (manager sys) !! id ≠ Some (fresh (dom (objects (manager sys)))).
Proof.
  intros Hinv Hl. destruct (inv_record sys Hinv _ _ Hl) as (r & _ & Hr & _).
  apply (is_fresh (dom (objects (manager sys)))).
  apply elem_of_dom. by exists r.
Qed.

Lemma step_preserves_inv sys sys' :
  sys_inv sys -> step settings sys sys' -> sys_inv sys'.
Proof.
  intros Hinv Hstep.
  destruct Hstep as
    [sys id now payload jm' status cmd Hnew Hsub
    |sys id payload cmd host jm' log Hpc Hrun
    |sys id payload cmd host exc Hpc Hrun
    |sys id cmd log host jm' out pc' Hpc Hrun Hafter
    |sys]; [| | | |done].
  - (* submission *)
    unfold create_job_submit in Hsub. injection Hsub as <- <- <-.
    split; simpl.
    + intros id' l. rewrite !lookup_insert. case_decide as Hid.
      * intros [= <-]. subst id'. rewrite decide_True by done.
        eexists _, _. by repeat split.
      * intros Hl. destruct (inv_record sys Hinv _ _ Hl) as (r & pc & Hr & Ht & Hag).
        rewrite decide_False.
        { by exists r, pc. }
        intros <-. by apply (fresh_not_stored sys id').
    + intros id1 id2 l. rewrite !lookup_insert.
      do 2 case_decide; subst; try done.
      * intros [= <-] Hl. by destruct (fresh_not_stored sys id2 Hinv).
      * intros Hl [= <-]. by destruct (fresh_not_stored sys id1 Hinv).
      * apply (inv_inj sys Hinv).
    + intros id' pc. rewrite !lookup_insert. case_decide; [done|].
      apply (inv_thread sys Hinv).
  - (* first locked block *)
    destruct (run_job_begin_inv _ _ _ _ _ _ _ Hrun) as (l & Hl & ->).
    destruct (inv_record sys Hinv _ _ Hl) as (r & pc & Hr & Ht & Hag).
    assert (pc = PcStart payload cmd) as -> by congruence.
    split; simpl.
    + intros id' l' Hl'. rewrite lookup_alter, lookup_insert.
      destruct (decide (id = id')) as [<-|Hid].
      * assert (l' = l) as -> by congruence. rewrite decide_True by done.
        rewrite Hr. eexists _, _. split; [done|]. split; [done|].
        simpl. destruct Hag as [_ ->]. done.
      * rewrite decide_False.
        { apply (inv_record sys Hinv _ _ Hl'). }
        intros <-. apply Hid. by apply (inv_inj sys Hinv id id' l).
    + apply (inv_inj sys Hinv).
    + intros id' pc'. rewrite lookup_insert. case_decide; subst.
      * by rewrite Hl.
      * apply (inv_thread sys Hinv).
  - (* the supervisor ends by an exception before the first block *)
    destruct (inv_thread sys Hinv _ _ Hpc) as [l Hl].
    destruct (inv_record sys Hinv _ _ Hl) as (r & pc & Hr & Ht & Hag).
    assert (pc = PcStart payload cmd) as -> by congruence.
    split; simpl.
    + intros id' l' Hl'. rewrite lookup_insert.
      destruct (decide (id = id')) as [<-|Hid].
      * assert (l' = l) as -> by congruence.
        exists r, (PcRaised exc). split; [done|]. split; [done|].
        simpl. destruct Hag as [-> ->]. done.
      * apply (inv_record sys Hinv _ _ Hl').
    + apply (inv_inj sys Hinv).
    + intros id' pc'. rewrite lookup_insert. case_decide; subst.
      * by rewrite Hl.
      * apply (inv_thread sys Hinv).
  - (* second locked block *)
    destruct (inv_thread sys Hinv _ _ Hpc) as [l Hl].
    destruct (inv_record sys Hinv _ _ Hl) as (r & pc & Hr & Ht & Hag).
    assert (pc = PcExec cmd log) as -> by congruence.
    destruct (run_job_finish_inv _ _ _ _ _ _ _ _ Hrun)
      as [(Hnone & _ & _)|[(l0 & t & code & msg & Hl0 & -> & ->)|(_ & ->)]];
      [congruence| |done].
    simpl in Hafter. injection Hafter as <-.
    assert (l0 = l) as -> by congruence.
    split; simpl.
    + intros id' l' Hl'. rewrite lookup_alter, lookup_insert.
      destruct (decide (id = id')) as [<-|Hid].
      * assert (l' = l) as -> by congruence. rewrite decide_True by done.
        rewrite Hr. eexists _, _. split; [done|]. split; [done|].
        destruct (final_writes_state t code msg r) as [Hterm Hcode].
        split; [exact Hterm|]. by rewrite Hcode.
      * rewrite decide_False.
        { apply (inv_record sys Hinv _ _ Hl'). }
        intros <-. apply Hid. by apply (inv_inj sys Hinv id id' l).
    + apply (inv_inj sys Hinv).
    + intros id' pc'. rewrite lookup_insert. case_decide; subst.
      * by rewrite Hl.
      * apply (inv_thread sys Hinv).
Qed.

Lemma rtc_preserves_inv sys sys' :
  sys_inv sys -> rtc (step settings) sys sys' -> sys_inv sys'.
Proof.
  intros Hinv Hsteps. induction Hsteps as [|sys mid sys' Hstep _ IH]; [done|].
  apply IH. by apply (step_preserves_inv sys).
Qed.

Lemma reachable_inv sys : reachable settings sys -> sys_inv sys.
Proof. apply rtc_preserves_inv, initial_inv. Qed.

End Lifecycle.

Section Transitions.

Variable settings : Settings.

Lemma record_of_Some jm id r :
  record_of jm id = Some r ↔
  ∃ l, _jobs jm !! id = Some l ∧ objects jm !! l = Some r.
Proof.
  unfold record_of, get_status, deref. split.
  - destruct (_jobs jm !! id) as [l|]; simpl; [|done]. intros Hr. by exists l.
  - intros (l & -> & Hr). done.
Qed.

(** Every step leaves each stored record where it was or advances it by
    one stage, and leaves a terminal record untouched. *)
Lemma step_advances sys sys' id r :
  sys_inv sys -> step settings sys sys' ->
  record_of (manager sys) id = Some r ->
  ∃ r', record_of (manager sys') id = Some r'
        ∧ advances r r' ∧ (terminal (state r) = true -> r' = r).
Proof.
  intros Hinv Hstep Hrec.
  pose proof Hrec as Hrec0.
  apply record_of_Some in Hrec as (l & Hl & Hr).
  destruct (inv_record sys Hinv _ _ Hl) as (r0 & pc & Hr0 & Ht & Hag).
  assert (r0 = r) as -> by congruence.
  destruct Hstep as
    [sys id0 now payload jm' status cmd Hnew Hsub
    |sys id0 payload cmd host jm' log Hpc Hrun
    |sys id0 payload cmd host exc Hpc Hrun
    |sys id0 cmd log host jm' out pc' Hpc Hrun Hafter
    |sys]; simpl.
  - unfold create_job_submit in Hsub. injection Hsub as <- <- <-.
    exists r. split; [|split; [by left|done]].
    apply record_of_Some. exists l. simpl. split.
    + rewrite lookup_insert_ne; [done|]. congruence.
    + rewrite lookup_insert_ne; [done|].
      intros Heq. apply (fresh_not_stored sys id Hinv). congruence.
  - destruct (run_job_begin_inv _ _ _ _ _ _ _ Hrun) as (l0 & Hl0 & ->).
    rewrite record_of_alter, Hl. unfold deref. rewrite Hr.
    destruct (decide (l0 = l)) as [->|Hne].
    + assert (id0 = id) as -> by apply (inv_inj sys Hinv _ _ _ Hl0 Hl).
      assert (pc = PcStart payload cmd) as -> by congruence.
      destruct Hag as [Hq _]. eexists. split; [done|]. split.
      * right; left. done.
      * rewrite Hq. done.
    + exists r. split; [done|]. split; [by left|done].
  - exists r. split; [done|]. split; [by left|done].
  - destruct (run_job_finish_inv _ _ _ _ _ _ _ _ Hrun)
      as [(_ & -> & _)|[(l0 & t & code & msg & Hl0 & _ & ->)|(-> & _)]];
      [exists r; split; [done|]; split; [by left|done]|
      |exists r; split; [done|]; split; [by left|done]].
    rewrite record_of_alter, Hl. unfold deref. rewrite Hr.
    destruct (decide (l0 = l)) as [->|Hne].
    + assert (id0 = id) as -> by apply (inv_inj sys Hinv _ _ _ Hl0 Hl).
      assert (pc = PcExec cmd log) as -> by congruence.
      destruct Hag as [Hq _]. eexists. split; [done|]. split.
      * right; right. split; [done|].
        apply (final_writes_state t code msg r).
      * rewrite Hq. done.
    + exists r. split; [done|]. split; [by left|done].
  - exists r. split; [done|]. split; [by left|done].
Qed.

(** A terminal record stays as it is along any run. *)
Lemma terminal_record_frozen sys sys' id r :
  sys_inv sys -> rtc (step settings) sys sys' ->
  record_of (manager sys) id = Some r -> terminal (state r) = true ->
  record_of (manager sys') id = Some r.
Proof.
  intros Hinv Hsteps Hrec Hterm.
  induction Hsteps as [|sys mid sys' Hstep _ IH]; [done|].
  destruct (step_advances sys mid id r Hinv Hstep Hrec) as (r' & Hrec' & _ & Hsame).
  rewrite (Hsame Hterm) in Hrec'.
  apply IH; [by apply (step_preserves_inv settings sys)|done].
Qed.

Lemma exit_code_rule_holds_spec r :
  exit_code_rule_holds r = true ↔ exit_code_rule r.
Proof.
  unfold exit_code_rule_holds, exit_code_rule.
  destruct (exit_code r), (state r); simpl; intuition congruence.
Qed.

(** Between steps, every stored record follows the exit-code rule. *)
Lemma stored_record_exit_code_rule sys id r :
  reachable settings sys -> record_of (manager sys) id = Some r ->
  exit_code_rule r.
Proof.
  intros Hreach Hrec. apply reachable_inv in Hreach as Hinv.
  apply record_of_Some in Hrec as (l & Hl & Hr).
  destruct (inv_record sys Hinv _ _ Hl) as (r0 & pc & Hr0 & _ & Hag).
  assert (r0 = r) as -> by congruence.
  unfold exit_code_rule.
  destruct pc; simpl in Hag; destruct Hag as [Hst Hcode].
  - rewrite Hst, Hcode. split; auto.
  - rewrite Hst, Hcode. split; auto.
  - destruct Hcode as [c Hc]. rewrite Hc.
    split; [done|]. intros [Hs|Hs]; rewrite Hs in Hst; done.
  - rewrite Hcode. split; [|done]. intros _.
    destruct (state r); auto; done.
Qed.

End Transitions.

(** X16: at the granularity of the supervisor's locked blocks, that is,
    between states in which no locked block is in progress: each step (a
    submission under a new identifier, or a supervisor running up to the
    end of its next locked block) leaves a stored record unchanged or
    moves it from [QUEUED] to [RUNNING] or from [RUNNING] to a terminal
    state, never backwards and never from [QUEUED] to a terminal state;
    and a record found terminal in such a state is the same record,
    field for field, in every later such state. What holds inside a
    locked block, assignment by assignment, is stated separately. *)
Theorem state_advances_monotonically settings sys id r :
  reachable settings sys ->
  record_of (manager sys) id = Some r ->
  (∀ sys', step settings sys sys' ->
     ∃ r', record_of (manager sys') id = Some r' ∧ advances r r')
  ∧ (terminal (state r) = true ->
     ∀ sys', rtc (step settings) sys sys' ->
       record_of (manager sys') id = Some r).
Proof.
  intros Hreach Hrec. apply reachable_inv in Hreach as Hinv. split.
  - intros sys' Hstep.
    destruct (step_advances settings sys sys' id r Hinv Hstep Hrec)
      as (r' & Hrec' & Hadv & _).
    by exists r'.
  - intros Hterm sys' Hsteps.
    by apply (terminal_record_frozen settings sys sys' id r).
Qed.

(** The scenario is a run of the service. *)
Lemma demo_step_create : step default_settings initial demo_sys_queued.
Proof.
  apply (step_create default_settings initial "job-1" 100%Z demo_request
           demo_queued demo_ref demo_command); reflexivity.
Qed.

Lemma demo_step_begin : step default_settings demo_sys_queued demo_sys_running.
Proof.
  apply (step_begin default_settings demo_sys_queued "job-1" demo_request
           demo_command (host_exiting 0) demo_running demo_log).
  - reflexivity.
  - vm_compute. reflexivity.
Qed.

Lemma demo_step_finish : step default_settings demo_sys_running demo_sys_done.
Proof.
  apply (step_finish default_settings demo_sys_running "job-1" demo_command
           demo_log (host_exiting 0) _ Returned PcDone).
  - reflexivity.
  - vm_compute. reflexivity.
  - reflexivity.
Qed.

Lemma demo_step_second : step default_settings demo_sys_done demo_sys_second.
Proof.
  apply (step_create default_settings demo_sys_done "job-2" 200%Z demo_request
           _ (fresh (dom (objects (manager demo_sys_done)))) demo_command).
  - vm_compute. reflexivity.
  - reflexivity.
Qed.

Lemma demo_reachable_done : reachable default_settings demo_sys_done.
Proof.
  unfold reachable.
  eapply rtc_l; [apply demo_step_create|].
  eapply rtc_l; [apply demo_step_begin|].
  apply rtc_once, demo_step_finish.
Qed.

Lemma state_advances_monotonically_witness :
  record_of (manager demo_sys_done) "job-1" = Some demo_done_record
  ∧ terminal (state demo_done_record) = true
  ∧ (∃ r', record_of (manager demo_sys_second) "job-1" = Some r'
           ∧ advances demo_done_record r')
  ∧ record_of (manager demo_sys_second) "job-1" = Some demo_done_record.
Proof.
  assert (record_of (manager demo_sys_done) "job-1" = Some demo_done_record)
    as Hrec by (vm_compute; reflexivity).
  destruct (state_advances_monotonically default_settings demo_sys_done
              "job-1" demo_done_record demo_reachable_done Hrec)
    as [Hstep Hfrozen].
  split; [exact Hrec|]. split; [reflexivity|]. split.
  - exact (Hstep demo_sys_second demo_step_second).
  - exact (Hfrozen eq_refl demo_sys_second (rtc_once _ _ demo_step_second)).
Defined.

(** Assignment by assignment, the state of a record never goes back and
    never passes from [QUEUED] to a terminal state: inside the first
    locked block it goes from [QUEUED] to [RUNNING] at the first
    assignment and stays; inside the second it goes from [RUNNING] to its
    terminal value at the first assignment and stays. *)
Lemma assignments_advance_state r t log code msg k :
  (state r = QUEUED ->
   state_advances
     (state (setattrs (take k (running_writes t log)) r))
     (state (setattrs (take (S k) (running_writes t log)) r)))
  ∧ (state r = RUNNING ->
     state_advances
       (state (setattrs (take k (final_writes t code msg)) r))
       (state (setattrs (take (S k) (final_writes t code msg)) r))).
Proof.
  split; intros Hstate.
  - destruct k as [|[|[|k]]]; simpl; rewrite ?take_nil, ?Hstate.
    + right; left. done.
    + by left.
    + by left.
    + by left.
  - destruct k as [|[|[|[|k]]]]; simpl; rewrite ?take_nil, ?Hstate.
    + right; right. split; [done|]. by destruct (code =? 0)%Z.
    + by left.
    + by left.
    + by left.
    + by left.
Qed.

(** C6: the third clause of the claim fails inside the second locked
    block. The supervisor assigns [status.state] first (line 112): read
    then through a reference handed out by [get_status], the record is
    terminal while its completion time, exit code and message are still
    absent; the assignments of lines 113-115 then change these three
    fields of a record whose state is already terminal and stays the
    same. *)
Theorem terminal_record_assigned_after_state jm id l r t code msg :
  get_status jm id = Some l ->
  deref jm l = Some r ->
  completed_at r = None -> exit_code r = None -> message r = None ->
  ∃ jm1 jm4 r1 r4,
    inside_locked_update jm id (final_writes t code msg) 1 = Some jm1
    ∧ locked_update jm id (final_writes t code msg) = Some jm4
    ∧ deref jm1 l = Some r1 ∧ deref jm4 l = Some r4
    ∧ terminal (state r1) = true ∧ state r4 = state r1
    ∧ completed_at r1 = None ∧ exit_code r1 = None ∧ message r1 = None
    ∧ completed_at r4 = Some t ∧ exit_code r4 = Some code
    ∧ message r4 = Some msg.
Proof.
  intros Hl Hr Hcompleted Hcode Hmsg. unfold get_status in Hl.
  exists (store_attrs l (take 1 (final_writes t code msg)) jm).
  exists (mk_manager (alter (setattrs (final_writes t code msg)) l (objects jm))
            (_jobs jm)).
  exists (setattrs (take 1 (final_writes t code msg)) r).
  exists (setattrs (final_writes t code msg) r).
  split; [unfold inside_locked_update; by rewrite Hl|].
  split; [by apply locked_update_some|].
  split; [by rewrite deref_store_attrs, Hr|].
  split; [unfold deref in *; simpl; by rewrite lookup_alter_eq, Hr|].
  simpl. split; [by destruct (code =? 0)%Z|]. by repeat split.
Qed.

Lemma terminal_record_assigned_after_state_witness :
  ∃ jm1 jm4 r1 r4,
    inside_locked_update demo_running "job-1"
      (final_writes 102%Z 0%Z "Job finished successfully") 1 = Some jm1
    ∧ locked_update demo_running "job-1"
        (final_writes 102%Z 0%Z "Job finished successfully") = Some jm4
    ∧ deref jm1 demo_ref = Some r1 ∧ deref jm4 demo_ref = Some r4
    ∧ state r1 = SUCCEEDED ∧ state r4 = SUCCEEDED
    ∧ message r1 = None ∧ message r4 = Some "Job finished successfully".
Proof.
  destruct (terminal_record_assigned_after_state demo_running "job-1" demo_ref
              (mk_status "job-1" RUNNING demo_command 100%Z (Some 101%Z) None
                 None (Some "/opt/UP2You/out/job-1.log") None)
              102%Z 0%Z "Job finished successfully")
    as (jm1 & jm4 & r1 & r4 & H1 & H4 & Hr1 & Hr4 & Ht & Hst & _ & _ & Hm1
        & _ & _ & Hm4).
  - reflexivity.
  - vm_compute. reflexivity.
  - reflexivity.
  - reflexivity.
  - reflexivity.
  - exists jm1, jm4, r1, r4.
    assert (state r1 = SUCCEEDED) as Hs1.
    { vm_compute in H1. injection H1 as <-.
      vm_compute in Hr1. by injection Hr1 as <-. }
    repeat split; try done. congruence.
Defined.

(** C7: the claim fails for a record read through a reference obtained
    earlier. A reader calls [get_status] while the job is [RUNNING] and
    keeps the reference; the supervisor enters its second locked block
    and assigns [status.state]; read now, before the assignment of
    [status.exit_code], the record is [SUCCEEDED] with no exit code. *)
Theorem reader_sees_terminal_state_without_exit_code :
  ∃ jm r,
    get_status demo_running "job-1" = Some demo_ref
    ∧ inside_locked_update demo_running "job-1"
        (final_writes 102%Z (supervise (inl 0%Z)).1 (supervise (inl 0%Z)).2) 1
      = Some jm
    ∧ deref jm demo_ref = Some r
    ∧ state r = SUCCEEDED ∧ exit_code r = None
    ∧ exit_code_rule_holds r = false.
Proof.
  eexists _, _. split; [reflexivity|]. split; [vm_compute; reflexivity|].
  split; [vm_compute; reflexivity|]. repeat split; reflexivity.
Qed.

(** ** A supervisor that has ended *)

Section Ended.

Variable settings : Settings.

(** Once the supervisor of a job has ended, no step changes its record
    or revives the thread. *)
Lemma step_after_end sys sys' id pc :
  sys_inv sys -> step settings sys sys' ->
  threads sys !! id = Some pc -> ended pc = true ->
  threads sys' !! id = Some pc
  ∧ record_of (manager sys') id = record_of (manager sys) id.
Proof.
  intros Hinv Hstep Hpc Hend.
  destruct (inv_thread sys Hinv _ _ Hpc) as [l Hl].
  destruct (inv_record sys Hinv _ _ Hl) as (r & pc0 & Hr & Hpc0 & _).
  assert (record_of (manager sys) id = Some r) as Hrec
    by (apply record_of_Some; eauto).
  destruct Hstep as
    [sys id0 now payload jm' status cmd Hnew Hsub
    |sys id0 payload cmd host jm' log Hpc' Hrun
    |sys id0 payload cmd host exc Hpc' Hrun
    |sys id0 cmd log host jm' out pc' Hpc' Hrun Hafter
    |sys]; simpl; [| | | |done].
  - assert (id0 ≠ id) as Hne by congruence.
    rewrite lookup_insert_ne by done. split; [done|].
    unfold create_job_submit in Hsub. injection Hsub as <- <- <-.
    rewrite Hrec. apply record_of_Some. exists l. simpl.
    rewrite !lookup_insert_ne; [done| |done].
    intros Heq. apply (fresh_not_stored sys id Hinv). congruence.
  - assert (id0 ≠ id) as Hne by (intros ->; rewrite Hpc in Hpc'; by inversion Hpc'; subst).
    rewrite lookup_insert_ne by done. split; [done|].
    destruct (run_job_begin_inv _ _ _ _ _ _ _ Hrun) as (l0 & Hl0 & ->).
    rewrite record_of_alter, Hl. rewrite decide_False; [by rewrite Hrec|].
    intros ->. apply Hne. by apply (inv_inj sys Hinv id0 id l).
  - assert (id0 ≠ id) as Hne by (intros ->; rewrite Hpc in Hpc'; by inversion Hpc'; subst).
    by rewrite lookup_insert_ne.
  - assert (id0 ≠ id) as Hne by (intros ->; rewrite Hpc in Hpc'; by inversion Hpc'; subst).
    rewrite lookup_insert_ne by done. split; [done|].
    destruct (run_job_finish_inv _ _ _ _ _ _ _ _ Hrun)
      as [(_ & -> & _)|[(l0 & t & code & msg & Hl0 & _ & ->)|(-> & _)]];
      [done| |done].
    rewrite record_of_alter, Hl. rewrite decide_False; [by rewrite Hrec|].
    intros ->. apply Hne. by apply (inv_inj sys Hinv id0 id l).
Qed.

Lemma run_after_end sys sys' id pc :
  sys_inv sys -> rtc (step settings) sys sys' ->
  threads sys !! id = Some pc -> ended pc = true ->
  record_of (manager sys') id = record_of (manager sys) id.
Proof.
  intros Hinv Hsteps Hpc Hend.
  induction Hsteps as [|sys mid sys' Hstep _ IH]; [done|].
  destruct (step_after_end sys mid id pc Hinv Hstep Hpc Hend) as [Hpc' <-].
  apply IH; [by apply (step_preserves_inv settings sys)|done].
Qed.

End Ended.

Lemma blocked_step_create :
  step default_settings initial blocked_sys_queued.
Proof.
  apply (step_create default_settings initial "job-1" 100%Z blocked_request
           blocked_queued 1%positive blocked_command); reflexivity.
Qed.

Lemma blocked_step_raise :
  step default_settings blocked_sys_queued blocked_sys_raised.
Proof.
  apply (step_begin_raise default_settings blocked_sys_queued "job-1"
           blocked_request blocked_command host_blocked_dir).
  - reflexivity.
  - vm_compute. reflexivity.
Qed.

(** C2: the claim fails when the log directory cannot be created. For a
    request whose output directory lies under a regular file, [mkdir]
    raises; [_run_job] ends by that exception before its first locked
    block, and the record of the job stays [QUEUED], with neither exit
    code nor message, in every later state of the service, instead of
    ending [FAILED] with exit code [-1]. *)
Theorem mkdir_failure_escapes_supervisor :
  ∃ exc r,
    _run_job default_settings host_blocked_dir blocked_queued "job-1"
      blocked_request blocked_command = (blocked_queued, Raised exc)
    ∧ record_of blocked_queued "job-1" = Some r
    ∧ state r = QUEUED ∧ exit_code r = None ∧ message r = None
    ∧ reachable default_settings blocked_sys_raised
    ∧ ∀ sys', rtc (step default_settings) blocked_sys_raised sys' ->
        record_of (manager sys') "job-1" = Some r.
Proof.
  exists (mk_exception "NotADirectoryError(20, 'Not a directory')").
  exists (new_status "job-1" blocked_command 100%Z).
  assert (reachable default_settings blocked_sys_raised) as Hreach.
  { eapply rtc_l; [apply blocked_step_create|].
    apply rtc_once, blocked_step_raise. }
  split; [vm_compute; reflexivity|]. split; [vm_compute; reflexivity|].
  do 3 (split; [reflexivity|]). split; [exact Hreach|].
  intros sys' Hsteps.
  rewrite (run_after_end default_settings blocked_sys_raised sys' "job-1"
             (PcRaised (mk_exception "NotADirectoryError(20, 'Not a directory')"))
             (reachable_inv _ _ Hreach) Hsteps eq_refl eq_refl).
  vm_compute. reflexivity.
Qed.

(** ** Further properties of path resolution and of the settings *)

Lemma joinpath_normal a b : normal a -> normal b -> normal (joinpath a b).
Proof.
  intros [Hra Hta] [Hrb Htb]. unfold joinpath.
  destruct (is_absolute b); [done|]. split; [done|]. simpl.
  by apply Forall_app.
Qed.

Lemma resolve_path_normal settings value :
  normal (up2you_repo_path settings) -> normal (resolve_path settings value).
Proof.
  intros Hroot. unfold resolve_path.
  destruct (is_absolute (parse value)); [apply parse_normal|].
  apply joinpath_normal; [done | apply parse_normal].
Qed.

Lemma Settings_init_normal getenv repo exe script base seg :
  normal (up2you_repo_path (Settings_init getenv repo exe script base seg)).
Proof. apply parse_normal. Qed.

(** X1: [resolve_path] yields an absolute path exactly when the input is
    absolute or the configured repository path is; the same holds for the
    script path, and under an absolute repository path the log file of a
    job is absolute as well. *)
Theorem resolved_path_absolute_iff settings value script :
  is_absolute (resolve_path settings value)
    = starts_with_sep value || is_absolute (up2you_repo_path settings)
  ∧ is_absolute (inference_script_path settings script)
    = starts_with_sep (py_or script (default_inference_script settings))
      || is_absolute (up2you_repo_path settings)
  ∧ (is_absolute (up2you_repo_path settings) = true ->
     ∀ payload id, is_absolute (job_log_path settings payload id) = true).
Proof.
  assert (∀ v, is_absolute (resolve_path settings v)
               = starts_with_sep v || is_absolute (up2you_repo_path settings))
    as Hres.
  { intros v. unfold resolve_path, joinpath. rewrite !is_absolute_parse.
    destruct (starts_with_sep v) eqn:Hv; simpl.
    - by rewrite is_absolute_parse.
    - done. }
  split; [apply Hres|]. split; [apply Hres|].
  intros Hroot payload id. unfold job_log_path, joinpath, _resolve_path.
  destruct (is_absolute (parse (id +:+ ".log"))) eqn:Hid; [done|].
  change (is_absolute (resolve_path settings (output_dir payload)) = true).
  rewrite Hres, Hroot. by destruct (starts_with_sep _).
Qed.

Lemma resolved_path_absolute_iff_witness :
  is_absolute (job_log_path default_settings demo_request "job-1") = true.
Proof.
  destruct (resolved_path_absolute_iff default_settings "" None)
    as (_ & _ & Hlog).
  exact (Hlog eq_refl demo_request "job-1").
Defined.

(** X2: resolution is stable through the text of its result: when the
    resolved path is absolute, resolving its text again gives the same
    path. Under a relative repository path a relative input is prefixed
    once more. *)
Theorem resolve_path_idempotent settings value :
  normal (up2you_repo_path settings) ->
  is_absolute (resolve_path settings value) = true ->
  resolve_path settings (to_str (resolve_path settings value))
    = resolve_path settings value.
Proof.
  intros Hroot Habs.
  pose proof (resolve_path_normal settings value Hroot) as Hnormal.
  unfold resolve_path at 1. rewrite (parse_to_str _ Hnormal). by rewrite Habs.
Qed.

Lemma resolve_path_idempotent_witness :
  to_str (resolve_path default_settings
            (to_str (resolve_path default_settings "photos//set1/")))
  = "/opt/UP2You/photos/set1".
Proof.
  rewrite (resolve_path_idempotent default_settings "photos//set1/").
  - reflexivity.
  - apply Settings_init_normal.
  - reflexivity.
Defined.

(** Without the hypothesis the round trip fails: under a relative
    repository path a relative input gets the prefix twice. *)
Example resolve_path_relative_root_not_idempotent :
  let settings := Settings_init (fun _ => None) (Some "repo") None None None None in
  to_str (resolve_path settings "a") = "repo/a"
  ∧ to_str (resolve_path settings (to_str (resolve_path settings "a")))
    = "repo/repo/a".
Proof. split; reflexivity. Qed.

(** X3: [Settings.__init__] followed by [_build_command] on a request
    without overrides: a non-empty keyword argument is used; an absent or
    empty one gives way to the environment variable, whose value is used
    even when it is the empty string; only an unset variable gives the
    built-in default. *)
Theorem settings_precedence getenv repo exe script base seg payload :
  let settings := Settings_init getenv repo exe script base seg in
  let cmd := _build_command settings payload in
  (∀ v, exe = Some v -> v ≠ "" -> cmd !! 0%nat = Some v)
  ∧ (omit_empty exe = None ->
     ∀ e, getenv "PYTHON_EXECUTABLE" = Some e -> cmd !! 0%nat = Some e)
  ∧ (omit_empty exe = None -> getenv "PYTHON_EXECUTABLE" = None ->
     cmd !! 0%nat = Some "python")
  ∧ (omit_empty (base_model_path payload) = None ->
     (∀ v, base = Some v -> v ≠ "" -> cmd !! 7%nat = Some v)
     ∧ (omit_empty base = None ->
        ∀ e, getenv "UP2YOU_BASE_MODEL_PATH" = Some e ->
          cmd !! 7%nat = Some e)
     ∧ (omit_empty base = None -> getenv "UP2YOU_BASE_MODEL_PATH" = None ->
        cmd !! 7%nat = Some "stabilityai/stable-diffusion-2-1-base"))
  ∧ (omit_empty (segment_model_name payload) = None ->
     (∀ v, seg = Some v -> v ≠ "" -> cmd !! 9%nat = Some v)
     ∧ (omit_empty seg = None ->
        ∀ e, getenv "UP2YOU_SEGMENT_MODEL_NAME" = Some e ->
          cmd !! 9%nat = Some e)
     ∧ (omit_empty seg = None -> getenv "UP2YOU_SEGMENT_MODEL_NAME" = None ->
        cmd !! 9%nat = Some "ZhengPeng7/BiRefNet")).
Proof.
  intros settings cmd.
  destruct (command_positions settings payload) as (H0 & _ & _ & _ & H7 & H9).
  fold cmd in H0, H7, H9. rewrite H0, H7, H9. clear H0 H7 H9.
  subst settings.
  cbn [Settings_init python_executable default_base_model_path
         default_segment_model_name].
  assert (∀ x d, omit_empty x = None -> py_or x d = d) as Hnone.
  { intros [[|c v]|] d; simpl; intros; done. }
  unfold os_getenv. repeat split.
  - intros v -> Hv. by rewrite py_or_nonempty.
  - intros Hexe e He. by rewrite Hnone, He.
  - intros Hexe He. by rewrite Hnone, He.
  - intros v -> Hv. rewrite Hnone by done. by rewrite py_or_nonempty.
  - intros Hb e He. rewrite !Hnone by done. by rewrite He.
  - intros Hb He. rewrite !Hnone by done. by rewrite He.
  - intros v -> Hv. rewrite Hnone by done. by rewrite py_or_nonempty.
  - intros Hb e He. rewrite !Hnone by done. by rewrite He.
  - intros Hb He. rewrite !Hnone by done. by rewrite He.
Qed.

Lemma settings_precedence_witness :
  let getenv := fun name =>
    if String.eqb name "PYTHON_EXECUTABLE" then Some "" else None in
  _build_command (Settings_init getenv None (Some "") None None None)
    demo_request !! 0%nat = Some ""
  ∧ _build_command (Settings_init getenv None (Some "python3") None None None)
      demo_request !! 0%nat = Some "python3"
  ∧ _build_command (Settings_init getenv None None None None None)
      demo_request !! 7%nat = Some "stabilityai/stable-diffusion-2-1-base".
Proof.
  intros getenv. split; [|split].
  - destruct (settings_precedence getenv None (Some "") None None None
                demo_request) as (_ & Henv & _).
    exact (Henv eq_refl "" eq_refl).
  - destruct (settings_precedence getenv None (Some "python3") None None None
                demo_request) as (Harg & _).
    exact (Harg "python3" eq_refl ltac:(discriminate)).
  - destruct (settings_precedence getenv None None None None None
                demo_request) as (_ & _ & _ & Hbase & _).
    destruct (Hbase eq_refl) as (_ & _ & Hdefault).
    exact (Hdefault eq_refl eq_refl).
Defined.

(** ** The log file of a job *)

Lemma str_length_app a b :
  String.length (a +:+ b) = (String.length a + String.length b)%nat.
Proof. induction a as [|c a IH]; simpl; [done|]. by rewrite IH. Qed.

Lemma str_app_inv_tail a b t : a +:+ t = b +:+ t -> a = b.
Proof.
  revert b. induction a as [|c a IH]; intros [|c' b] Heq.
  - done.
  - apply (f_equal String.length) in Heq.
    rewrite !str_length_app in Heq. simpl in Heq. lia.
  - apply (f_equal String.length) in Heq.
    rewrite !str_length_app in Heq. simpl in Heq. lia.
  - change (String c (a +:+ t) = String c' (b +:+ t)) in Heq.
    injection Heq as -> Heq. f_equal. by apply IH.
Qed.

Lemma has_sep_app a b : has_sep (a +:+ b) = has_sep a || has_sep b.
Proof.
  induction a as [|c a IH]; simpl; [done|]. rewrite IH. by rewrite orb_assoc.
Qed.

(** The file name [<id>.log] is one path component when the
    identifier has no separator. *)
Lemma log_name_component id :
  has_sep id = false -> component_ok (id +:+ ".log") = true.
Proof.
  intros Hid. unfold component_ok, keep_component.
  rewrite has_sep_app, Hid. simpl.
  destruct id as [|c [|c' rest]]; simpl; [done| |];
    by destruct (Ascii.eqb c ".").
Qed.

Lemma parse_component x :
  component_ok x = true -> parse x = mk_path "" [x].
Proof.
  intros Hx. destruct (component_ok_inv x Hx) as (Hkeep & Hsep & Hstart).
  unfold parse. rewrite (splitroot_relative x Hstart).
  rewrite (split_sep_no_sep x Hsep). by rewrite filter_cons_True, filter_nil.
Qed.

Lemma job_log_path_tail settings payload id :
  has_sep id = false ->
  job_log_path settings payload id
  = mk_path (path_root (resolve_path settings (output_dir payload)))
      (path_tail (resolve_path settings (output_dir payload))
       ++ [id +:+ ".log"]).
Proof.
  intros Hid. unfold job_log_path, _resolve_path.
  by rewrite (parse_component _ (log_name_component id Hid)).
Qed.

Lemma job_log_path_normal settings payload id :
  normal (up2you_repo_path settings) ->
  normal (job_log_path settings payload id).
Proof.
  intros Hroot. unfold job_log_path, _resolve_path.
  apply joinpath_normal; [by apply resolve_path_normal | apply parse_normal].
Qed.

(** X4: for an identifier without separator, as [uuid4] gives them, the log
    file is the file [<id>.log] directly inside the resolved output
    directory, and that directory is the one the supervisor creates
    before anything else: when its creation fails the job is given up. *)
Theorem log_file_in_output_dir settings host jm payload cmd id :
  has_sep id = false ->
  parent (job_log_path settings payload id)
    = resolve_path settings (output_dir payload)
  ∧ path_tail (job_log_path settings payload id)
    = (path_tail (resolve_path settings (output_dir payload))
       ++ [id +:+ ".log"])%list
  ∧ ∀ exc, mkdir host (resolve_path settings (output_dir payload)) = Some exc ->
      _run_job settings host jm id payload cmd = (jm, Raised exc).
Proof.
  intros Hid.
  assert (parent (job_log_path settings payload id)
          = resolve_path settings (output_dir payload)) as Hparent.
  { rewrite (job_log_path_tail settings payload id Hid). unfold parent. simpl.
    rewrite removelast_last.
    by destruct (resolve_path settings (output_dir payload)). }
  split; [exact Hparent|]. split.
  - by rewrite (job_log_path_tail settings payload id Hid).
  - intros exc Hmk. apply run_job_mkdir_raises. by rewrite Hparent.
Qed.

Lemma log_file_in_output_dir_witness :
  to_str (parent (job_log_path default_settings demo_request "job-1"))
    = "/opt/UP2You/out"
  ∧ path_tail (job_log_path default_settings demo_request "job-1")
    = ["opt"; "UP2You"; "out"; "job-1.log"].
Proof.
  destruct (log_file_in_output_dir default_settings (host_exiting 0)
              demo_queued demo_request demo_command "job-1" eq_refl)
    as (Hparent & Htail & _).
  rewrite Hparent, Htail. split; reflexivity.
Defined.

(** X5: two jobs with different identifiers (without separator) never share
    a log file, whatever their output directories; under a repository
    path in normal form the recorded texts of the two log paths differ
    as well. *)
Theorem log_files_distinct settings payload1 payload2 id1 id2 :
  has_sep id1 = false -> has_sep id2 = false -> id1 ≠ id2 ->
  job_log_path settings payload1 id1 ≠ job_log_path settings payload2 id2
  ∧ (normal (up2you_repo_path settings) ->
     to_str (job_log_path settings payload1 id1)
       ≠ to_str (job_log_path settings payload2 id2)).
Proof.
  intros Hid1 Hid2 Hne.
  assert (job_log_path settings payload1 id1
          ≠ job_log_path settings payload2 id2) as Hpaths.
  { rewrite (job_log_path_tail _ _ _ Hid1), (job_log_path_tail _ _ _ Hid2).
    intros [= _ Htail]. apply app_inj_tail in Htail as [_ Hname].
    by apply Hne, (str_app_inv_tail id1 id2 ".log"). }
  split; [exact Hpaths|]. intros Hroot Htext. apply Hpaths.
  rewrite <- (parse_to_str _ (job_log_path_normal settings payload1 id1 Hroot)).
  rewrite <- (parse_to_str _ (job_log_path_normal settings payload2 id2 Hroot)).
  by rewrite Htext.
Qed.

Lemma log_files_distinct_witness :
  to_str (job_log_path default_settings demo_request "job-1")
    ≠ to_str (job_log_path default_settings demo_request "job-2").
Proof.
  destruct (log_files_distinct default_settings demo_request demo_request
              "job-1" "job-2" eq_refl eq_refl ltac:(discriminate))
    as [_ Htext].
  apply Htext, Settings_init_normal.
Defined.

(** ** The fields of a record along its life *)

Lemma setattrs_identity ws r :
  job_id (setattrs ws r) = job_id r
  ∧ command (setattrs ws r) = command r
  ∧ created_at (setattrs ws r) = created_at r.
Proof.
  revert r. induction ws as [|w ws IH]; intros r; [done|].
  change (setattrs (w :: ws) r) with (setattrs ws (setattr w r)).
  destruct (IH (setattr w r)) as (-> & -> & ->). by destruct w.
Qed.

Lemma untouched_fields id r :
  untouched id r ->
  job_id r = id ∧ state r = QUEUED ∧ started_at r = None
  ∧ completed_at r = None ∧ exit_code r = None ∧ log_path r = None
  ∧ message r = None.
Proof. unfold untouched. intros ->. done. Qed.

Section Shape.

Variable settings : Settings.

Lemma initial_shape : shape_inv settings initial.
Proof. intros id l. simpl. by rewrite lookup_empty. Qed.

Lemma step_preserves_shape sys sys' :
  sys_inv sys -> shape_inv settings sys -> step settings sys sys' ->
  shape_inv settings sys'.
Proof.
  intros Hinv Hshape Hstep.
  destruct Hstep as
    [sys id now payload jm' status cmd Hnew Hsub
    |sys id payload cmd host jm' log Hpc Hrun
    |sys id payload cmd host exc Hpc Hrun
    |sys id cmd log host jm' out pc' Hpc Hrun Hafter
    |sys]; [| | | |done].
  - unfold create_job_submit in Hsub. injection Hsub as <- <- <-.
    intros id' l. simpl. rewrite !lookup_insert. case_decide as Hid.
    + intros [= <-]. subst id'. rewrite decide_True by done.
      eexists _, _. split; [done|]. split; [done|]. by repeat split.
    + intros Hl. destruct (Hshape _ _ Hl) as (r & pc & Hr & Ht & Hsh).
      rewrite decide_False.
      { by exists r, pc. }
      intros <-. by apply (fresh_not_stored sys id').
  - destruct (run_job_begin_inv _ _ _ _ _ _ _ Hrun) as (l & Hl & ->).
    destruct (Hshape _ _ Hl) as (r & pc & Hr & Ht & Hid & Hsh).
    assert (pc = PcStart payload cmd) as -> by congruence.
    destruct Hsh as (Hcmd & Hcommand & Hun).
    intros id' l' Hl'. simpl in *. rewrite lookup_alter, lookup_insert.
    destruct (decide (id = id')) as [<-|Hne].
    + assert (l' = l) as -> by congruence. rewrite decide_True by done.
      rewrite Hr. eexists _, _. split; [done|]. split; [done|].
      rewrite Hun. by repeat split; simpl; eauto.
    + rewrite decide_False.
      { apply (Hshape _ _ Hl'). }
      intros <-. apply Hne. by apply (inv_inj sys Hinv id id' l).
  - destruct (inv_thread sys Hinv _ _ Hpc) as [l Hl].
    destruct (Hshape _ _ Hl) as (r & pc & Hr & Ht & Hid & Hsh).
    assert (pc = PcStart payload cmd) as -> by congruence.
    destruct Hsh as (_ & _ & Hun).
    intros id' l' Hl'. simpl in *. rewrite lookup_insert.
    destruct (decide (id = id')) as [<-|Hne].
    + assert (l' = l) as -> by congruence.
      exists r, (PcRaised exc). by repeat split.
    + apply (Hshape _ _ Hl').
  - destruct (inv_thread sys Hinv _ _ Hpc) as [l Hl].
    destruct (Hshape _ _ Hl) as (r & pc & Hr & Ht & Hid & Hsh).
    assert (pc = PcExec cmd log) as -> by congruence.
    destruct Hsh as (Hcommand & Hstate & Hstart & Hlog & Hcompl & Hcode & Hmsg).
    destruct (run_job_finish_inv _ _ _ _ _ _ _ _ Hrun)
      as [(Hnone & _ & _)|[(l0 & t & code & msg & Hl0 & -> & ->)|(_ & ->)]];
      [congruence| |done].
    simpl in Hafter. injection Hafter as <-.
    assert (l0 = l) as -> by congruence.
    intros id' l' Hl'. simpl in *. rewrite lookup_alter, lookup_insert.
    destruct (decide (id = id')) as [<-|Hne].
    + assert (l' = l) as -> by congruence. rewrite decide_True by done.
      rewrite Hr. eexists _, _. split; [done|]. split; [done|].
      split; [done|]. split.
      * apply (final_writes_state t code msg r).
      * unfold well_shaped. simpl.
        destruct (code =? 0)%Z eqn:Hzero; rewrite Hlog; repeat split; eauto.
        -- apply Z.eqb_eq in Hzero. by subst.
        -- apply Z.eqb_neq in Hzero. by exists code.
    + rewrite decide_False.
      { apply (Hshape _ _ Hl'). }
      intros <-. apply Hne. by apply (inv_inj sys Hinv id id' l).
Qed.

Lemma rtc_preserves_shape sys sys' :
  sys_inv sys -> shape_inv settings sys -> rtc (step settings) sys sys' ->
  shape_inv settings sys'.
Proof.
  intros Hinv Hshape Hsteps.
  induction Hsteps as [|sys mid sys' Hstep _ IH]; [done|].
  apply IH.
  - by apply (step_preserves_inv settings sys).
  - by apply (step_preserves_shape sys).
Qed.

Lemma reachable_shape sys :
  reachable settings sys -> sys_inv sys ∧ shape_inv settings sys.
Proof.
  intros Hreach. split; [by apply (reachable_inv settings)|].
  apply (rtc_preserves_shape initial); [apply initial_inv|apply initial_shape|done].
Qed.

End Shape.

Lemma same_identity_refl r : same_identity r r.
Proof. by repeat split. Qed.

Lemma same_identity_trans r1 r2 r3 :
  same_identity r1 r2 -> same_identity r2 r3 -> same_identity r1 r3.
Proof.
  intros (Hid & Hcmd & Hcre & Hst & Hlog & Hco)
         (Hid' & Hcmd' & Hcre' & Hst' & Hlog' & Hco').
  repeat split; try congruence.
  - intros Hs. rewrite <- (Hst Hs). apply Hst'. by rewrite (Hst Hs).
  - intros Hs. rewrite <- (Hlog Hs). apply Hlog'. by rewrite (Hlog Hs).
  - intros Hs. rewrite <- (Hco Hs). apply Hco'. by rewrite (Hco Hs).
Qed.

Lemma step_keeps_identity settings sys sys' id r :
  sys_inv sys -> shape_inv settings sys -> step settings sys sys' ->
  record_of (manager sys) id = Some r ->
  ∃ r', record_of (manager sys') id = Some r' ∧ same_identity r r'.
Proof.
  intros Hinv Hshape Hstep Hrec.
  pose proof Hrec as Hrec0.
  apply record_of_Some in Hrec as (l & Hl & Hr).
  destruct (Hshape _ _ Hl) as (r0 & pc & Hr0 & Ht & Hid & Hsh).
  assert (r0 = r) as -> by congruence.
  destruct Hstep as
    [sys id0 now payload jm' status cmd Hnew Hsub
    |sys id0 payload cmd host jm' log Hpc Hrun
    |sys id0 payload cmd host exc Hpc Hrun
    |sys id0 cmd log host jm' out pc' Hpc Hrun Hafter
    |sys]; simpl.
  - unfold create_job_submit in Hsub. injection Hsub as <- <- <-.
    exists r. split; [|apply same_identity_refl].
    apply record_of_Some. exists l. simpl. split.
    + rewrite lookup_insert_ne; [done|]. congruence.
    + rewrite lookup_insert_ne; [done|].
      intros Heq. apply (fresh_not_stored sys id Hinv). congruence.
  - destruct (run_job_begin_inv _ _ _ _ _ _ _ Hrun) as (l0 & Hl0 & ->).
    rewrite record_of_alter, Hl. unfold deref. rewrite Hr.
    destruct (decide (l0 = l)) as [->|Hne];
      [|exists r; split; [done|apply same_identity_refl]].
    assert (id0 = id) as -> by apply (inv_inj sys Hinv _ _ _ Hl0 Hl).
    assert (pc = PcStart payload cmd) as -> by congruence.
    destruct Hsh as (_ & _ & Hun).
    destruct (untouched_fields id r Hun) as (_ & _ & Hst & Hco & _ & Hlog & _).
    eexists. split; [done|].
    destruct (setattrs_identity
                (running_writes (clock_start host) log) r) as (? & ? & ?).
    repeat split; try done; rewrite ?Hst, ?Hlog, ?Hco; by intros [? ?].
  - exists r. split; [done|apply same_identity_refl].
  - destruct (run_job_finish_inv _ _ _ _ _ _ _ _ Hrun)
      as [(_ & -> & _)|[(l0 & t & code & msg & Hl0 & _ & ->)|(-> & _)]];
      [exists r; split; [done|apply same_identity_refl]|
      |exists r; split; [done|apply same_identity_refl]].
    rewrite record_of_alter, Hl. unfold deref. rewrite Hr.
    destruct (decide (l0 = l)) as [->|Hne];
      [|exists r; split; [done|apply same_identity_refl]].
    assert (id0 = id) as -> by apply (inv_inj sys Hinv _ _ _ Hl0 Hl).
    assert (pc = PcExec cmd log) as -> by congruence.
    destruct Hsh as (_ & _ & _ & _ & Hco & _).
    eexists. split; [done|].
    repeat split; try done; rewrite ?Hco; by intros [? ?].
  - exists r. split; [done|apply same_identity_refl].
Qed.

(** X6: between the supervisor's locked blocks, a stored record carries the
    identifier it is stored under, and its optional fields are present
    according to its state: none while [QUEUED]; start time and log path
    from [RUNNING] on; completion time, exit code and message in the
    terminal states, where the state is [SUCCEEDED] exactly for exit
    code 0. *)
Theorem stored_record_well_shaped settings sys id r :
  reachable settings sys -> record_of (manager sys) id = Some r ->
  job_id r = id ∧ well_shaped r.
Proof.
  intros Hreach Hrec. destruct (reachable_shape settings sys Hreach) as [_ Hshape].
  apply record_of_Some in Hrec as (l & Hl & Hr).
  destruct (Hshape _ _ Hl) as (r0 & pc & Hr0 & _ & Hid & Hsh).
  assert (r0 = r) as -> by congruence. split; [done|].
  destruct pc as [payload cmd|cmd log| |exc].
  - destruct Hsh as (_ & _ & Hun). unfold well_shaped.
    destruct (untouched_fields id r Hun) as (_ & -> & -> & -> & -> & -> & ->).
    done.
  - destruct Hsh as (_ & Hst & Hstart & Hlog & Hco & Hcode & Hmsg).
    unfold well_shaped. rewrite Hst, Hlog. by repeat split.
  - by destruct Hsh.
  - unfold well_shaped.
    destruct (untouched_fields id r Hsh) as (_ & -> & -> & -> & -> & -> & ->).
    done.
Qed.

Lemma stored_record_well_shaped_witness :
  job_id demo_done_record = "job-1" ∧ well_shaped demo_done_record.
Proof.
  apply (stored_record_well_shaped default_settings demo_sys_done "job-1").
  - apply demo_reachable_done.
  - vm_compute. reflexivity.
Defined.

(** X7: a job once stored is never removed and keeps its record object:
    after any number of steps [get_status] returns the same reference,
    and [get_job] does not answer 404. *)
Theorem jobs_never_deleted settings sys sys' id l :
  rtc (step settings) sys sys' ->
  get_status (manager sys) id = Some l ->
  get_status (manager sys') id = Some l ∧ get_job (manager sys') id = inr l.
Proof.
  intros Hsteps Hl.
  assert (get_status (manager sys') id = Some l) as Hl'.
  { induction Hsteps as [|sys mid sys' Hstep _ IH]; [done|]. apply IH.
    unfold get_status in *.
    destruct Hstep as
      [sys id0 now payload jm' status cmd Hnew Hsub
      |sys id0 payload cmd host jm' log Hpc Hrun
      |sys id0 payload cmd host exc Hpc Hrun
      |sys id0 cmd log host jm' out pc' Hpc Hrun Hafter
      |sys]; simpl; try done.
    - unfold create_job_submit in Hsub. injection Hsub as <- <- <-. simpl.
      rewrite lookup_insert_ne; [done|]. congruence.
    - by destruct (run_job_begin_inv _ _ _ _ _ _ _ Hrun) as (l0 & _ & ->).
    - by destruct (run_job_finish_inv _ _ _ _ _ _ _ _ Hrun)
        as [(_ & -> & _)|[(l0 & t & code & msg & _ & _ & ->)|(-> & _)]]. }
  split; [done|]. unfold get_job. by rewrite Hl'.
Qed.

Lemma jobs_never_deleted_witness :
  get_job (manager demo_sys_second) "job-1" = inr demo_ref.
Proof.
  apply (jobs_never_deleted default_settings demo_sys_queued demo_sys_second
           "job-1" demo_ref).
  - eapply rtc_l; [apply demo_step_begin|].
    eapply rtc_l; [apply demo_step_finish|].
    apply rtc_once, demo_step_second.
  - reflexivity.
Defined.

(** X8: [get_job] answers 404 exactly for an identifier that was never
    submitted; for any other it returns a reference to an existing
    record, and that record carries the identifier asked for. *)
Theorem get_job_not_found_iff settings sys id :
  reachable settings sys ->
  (get_job (manager sys) id = inl (mk_http_exception 404 "Job not found")
   ↔ threads sys !! id = None)
  ∧ (∀ l, get_job (manager sys) id = inr l ->
       ∃ r, deref (manager sys) l = Some r ∧ job_id r = id).
Proof.
  intros Hreach. destruct (reachable_shape settings sys Hreach) as [Hinv Hshape].
  unfold get_job, get_status. split.
  - destruct (_jobs (manager sys) !! id) as [l|] eqn:Hl.
    + destruct (inv_record sys Hinv _ _ Hl) as (r & pc & _ & Ht & _).
      rewrite Ht. split; intros; done.
    + split; [|done]. intros _.
      destruct (threads sys !! id) as [pc|] eqn:Ht; [|done].
      destruct (inv_thread sys Hinv _ _ Ht) as [l Hl']. congruence.
  - intros l Hget.
    destruct (_jobs (manager sys) !! id) as [l0|] eqn:Hl; [|done].
    injection Hget as ->.
    destruct (Hshape _ _ Hl) as (r & pc & Hr & _ & Hid & _). by exists r.
Qed.

Lemma get_job_not_found_iff_witness :
  get_job (manager demo_sys_done) "job-7"
    = inl (mk_http_exception 404 "Job not found")
  ∧ ∃ r, deref (manager demo_sys_done) demo_ref = Some r ∧ job_id r = "job-1".
Proof.
  destruct (get_job_not_found_iff default_settings demo_sys_done "job-7"
              demo_reachable_done) as [Hnone _].
  destruct (get_job_not_found_iff default_settings demo_sys_done "job-1"
              demo_reachable_done) as [_ Hsome].
  split; [by apply Hnone | by apply Hsome].
Defined.

(** X9: along any run, the identifier, the command and the creation time of
    a stored record never change, and the start time, the log path and
    the completion time never change once they are set. *)
Theorem identity_fields_fixed settings sys sys' id r :
  reachable settings sys -> rtc (step settings) sys sys' ->
  record_of (manager sys) id = Some r ->
  ∃ r', record_of (manager sys') id = Some r' ∧ same_identity r r'.
Proof.
  intros Hreach Hsteps.
  destruct (reachable_shape settings sys Hreach) as [Hinv Hshape].
  clear Hreach. revert r.
  induction Hsteps as [|sys mid sys' Hstep _ IH]; intros r Hrec.
  - exists r. split; [done|apply same_identity_refl].
  - destruct (step_keeps_identity settings sys mid id r Hinv Hshape Hstep Hrec)
      as (r1 & Hrec1 & Hsame1).
    destruct (IH (step_preserves_inv settings sys mid Hinv Hstep)
                (step_preserves_shape settings sys mid Hinv Hshape Hstep)
                r1 Hrec1) as (r' & Hrec' & Hsame').
    exists r'. split; [done|]. by apply (same_identity_trans r r1 r').
Qed.

Lemma identity_fields_fixed_witness :
  ∃ r', record_of (manager demo_sys_done) "job-1" = Some r'
        ∧ same_identity (new_status "job-1" demo_command 100%Z) r'.
Proof.
  apply (identity_fields_fixed default_settings demo_sys_queued demo_sys_done).
  - unfold reachable. apply rtc_once, demo_step_create.
  - eapply rtc_l; [apply demo_step_begin|]. apply rtc_once, demo_step_finish.
  - vm_compute. reflexivity.
Defined.

(** ** Jobs side by side, and one job from submission to end *)

Lemma record_of_other_alter jm f l id' :
  (∀ l', _jobs jm !! id' = Some l' -> l' ≠ l) ->
  record_of (mk_manager (alter f l (objects jm)) (_jobs jm)) id'
  = record_of jm id'.
Proof.
  intros Hother. rewrite record_of_alter. unfold record_of, get_status.
  destruct (_jobs jm !! id') as [l'|] eqn:Hl'; simpl; [|done].
  rewrite decide_False; [done|]. intros ->. by apply (Hother l').
Qed.

(** X10: in a reachable state of the service, running the supervisor of one
    job, whatever the host answers, and submitting a job under another
    identifier both leave the record of every other job as it is. *)
Theorem jobs_do_not_interfere settings sys host id payload cmd now id' :
  reachable settings sys -> id' ≠ id ->
  record_of (_run_job settings host (manager sys) id payload cmd).1 id'
    = record_of (manager sys) id'
  ∧ record_of (create_job_submit settings (manager sys) id now payload).1.1 id'
    = record_of (manager sys) id'.
Proof.
  intros Hreach Hne. apply reachable_inv in Hreach as Hinv. split.
  - unfold _run_job.
    destruct (run_job_begin settings host (manager sys) id payload)
      as [[jm1 log]|exc] eqn:Hbegin; [|done].
    destruct (run_job_begin_inv _ _ _ _ _ _ _ Hbegin) as (l & Hl & ->).
    assert (∀ l', _jobs (manager sys) !! id' = Some l' -> l' ≠ l) as Hother.
    { intros l' Hl' ->. apply Hne. by apply (inv_inj sys Hinv id' id l). }
    destruct (run_job_finish settings host _ id cmd log) as [jm2 out] eqn:Hfin.
    destruct (run_job_finish_inv _ _ _ _ _ _ _ _ Hfin)
      as [(_ & -> & _)|[(l0 & t & code & msg & Hl0 & _ & ->)|(-> & _)]];
      simpl.
    + by apply record_of_other_alter.
    + simpl in Hl0. assert (l0 = l) as -> by congruence.
      rewrite alter_alter_eq. by apply record_of_other_alter.
    + by apply record_of_other_alter.
  - unfold create_job_submit, record_of, get_status, deref. simpl.
    rewrite lookup_insert_ne by done.
    destruct (_jobs (manager sys) !! id') as [l'|] eqn:Hl'; simpl; [|done].
    rewrite lookup_insert_ne; [done|].
    intros Heq. apply (fresh_not_stored sys id' Hinv). congruence.
Qed.

Lemma jobs_do_not_interfere_witness :
  record_of (_run_job default_settings host_no_executable
               (manager demo_sys_second) "job-2" demo_request demo_command).1
    "job-1"
  = Some demo_done_record.
Proof.
  destruct (jobs_do_not_interfere default_settings demo_sys_second
              host_no_executable "job-2" demo_request demo_command 0%Z "job-1")
    as [Hrun _].
  - unfold reachable. eapply rtc_r; [apply demo_reachable_done|].
    apply demo_step_second.
  - discriminate.
  - rewrite Hrun. vm_compute. reflexivity.
Defined.



(** X12: whatever the supervisor has done by the time the response of
    [create_job] is built, the job is stored under the identifier of the
    response, and the response repeats the identifier, the current
    state, the command and the creation time of the stored record; the
    command is the built one and the creation time the one read at
    submission. *)
Theorem created_response_matches_record settings host jm id now payload p :
  ∃ r,
    record_of (create_job settings host jm id now payload p).1 id = Some r
    ∧ (create_job settings host jm id now payload p).2
      = Some (mk_created (job_id r) (state r) (command r) (created_at r))
    ∧ job_id r = id
    ∧ command r = _build_command settings payload
    ∧ created_at r = now.
Proof.
  unfold create_job, create_job_submit, create_job_respond. cbv zeta.
  set (status := fresh (dom (objects jm))).
  set (cmd := _build_command settings payload).
  set (jm1 := mk_manager (<[status := new_status id cmd now]> (objects jm))
                (<[id := status]> (_jobs jm))).
  assert (_jobs jm1 !! id = Some status) as Hl by apply lookup_insert_eq.
  assert (objects jm1 !! status = Some (new_status id cmd now)) as Hnew
    by apply lookup_insert_eq.
  assert (∃ ws, _jobs (supervisor_upto p settings host jm1 id payload cmd)
                  = _jobs jm1
                ∧ objects (supervisor_upto p settings host jm1 id payload cmd)
                  !! status = Some (setattrs ws (new_status id cmd now)))
    as (ws & Hjobs & Hobj).
  { destruct p; cbn [supervisor_upto].
    - by exists [].
    - destruct (run_job_begin settings host jm1 id payload)
        as [[jm2 log]|exc] eqn:Hbegin; [|by exists []].
      destruct (run_job_begin_inv _ _ _ _ _ _ _ Hbegin) as (l & Hl' & ->).
      assert (l = status) as -> by congruence.
      eexists. split; [done|]. cbn [objects].
      by rewrite lookup_alter_eq, Hnew.
    - unfold _run_job.
      destruct (run_job_begin settings host jm1 id payload)
        as [[jm2 log]|exc] eqn:Hbegin; [|by exists []].
      destruct (run_job_begin_inv _ _ _ _ _ _ _ Hbegin) as (l & Hl' & ->).
      assert (l = status) as -> by congruence.
      destruct (run_job_finish settings host _ id cmd log) as [jm3 out] eqn:Hfin.
      destruct (run_job_finish_inv _ _ _ _ _ _ _ _ Hfin)
        as [(_ & -> & _)|[(l' & t & code & msg & Hl'' & _ & ->)|(-> & _)]];
        cbn [fst objects _jobs];
        [|idtac|eexists; split; [done|]; by rewrite lookup_alter_eq, Hnew].
      + eexists. split; [done|]. by rewrite lookup_alter_eq, Hnew.
      + cbn [_jobs] in Hl''. assert (l' = status) as -> by congruence.
        exists (running_writes (clock_start host) log
                ++ final_writes t code msg)%list.
        split; [done|]. rewrite !lookup_alter_eq, Hnew.
        unfold setattrs. by rewrite foldl_app. }
  exists (setattrs ws (new_status id cmd now)).
  destruct (setattrs_identity ws (new_status id cmd now)) as (Hid & Hcmd & Hcre).
  unfold record_of, get_status, deref. cbn [fst snd].
  rewrite Hjobs, Hl. simpl. rewrite Hobj.
  simpl. rewrite Hid, Hcmd, Hcre. done.
Qed.

(** ** The upload script *)

(** Membership of a commit in an explicit list of calls. *)
Ltac find_commit Hin :=
  repeat (apply elem_of_cons in Hin as [Hin|Hin];
          [try discriminate Hin|]);
  try (by apply elem_of_nil in Hin).

Section Upload.

Import PlayStore.

Variable api : Google.

Lemma authenticate_spec u w :
  ∃ u' w' ok,
    authenticate api u w = (u', w', ok)
    ∧ files w' = files w
    ∧ credentials_file u' = credentials_file u
    ∧ package_name u' = package_name u
    ∧ (ok = true ↔
       from_service_account_file api (credentials_file u) = None
       ∧ build api = None)
    ∧ (ok = true -> service u' = true).
Proof.
  unfold authenticate, authentication_failed.
  destruct (from_service_account_file api (credentials_file u)) as [e|].
  - eexists _, _, _. split; [done|]. repeat split; try done. by intros [? _].
  - destruct (build api) as [e|].
    + eexists _, _, _. split; [done|]. repeat split; try done. by intros [_ ?].
    + eexists _, _, _. split; [done|]. by repeat split.
Qed.

(** X13: [upload_bundle] never touches a file. Its calls are, in this
    order, insert, media, upload, track update and commit, each made
    only after all the earlier ones have succeeded, and none after the
    first that fails; it returns [True] exactly when all five succeed,
    and then the calls are the five of a complete upload. A commit is
    attempted only after the edit was created, the bundle uploaded and
    the track updated with the version code returned. *)
Theorem upload_bundle_commit_last u w aab_file track :
  service u = true ->
  ∃ u' w' ok,
    upload_bundle api u w aab_file track = (u', w', ok)
    ∧ files w' = files w
    ∧ credentials_file u' = credentials_file u
    ∧ calls w'
      = (calls w
         ++ until_first_failure
              (upload_stages api (package_name u) aab_file track))%list
    ∧ ok = forallb snd (upload_stages api (package_name u) aab_file track)
    ∧ (ok = true ↔ upload_succeeds api (package_name u) aab_file track)
    ∧ (ok = true ->
       ∃ id vc,
         until_first_failure
           (upload_stages api (package_name u) aab_file track)
         = upload_calls (package_name u) aab_file track id vc)
    ∧ (∀ e p,
         CallCommit e p
           ∈ until_first_failure
               (upload_stages api (package_name u) aab_file track) ->
         ∃ vc,
           until_first_failure
             (upload_stages api (package_name u) aab_file track)
           = upload_calls (package_name u) aab_file track e vc
           ∧ edits_insert api (package_name u) = inr (Some e)
           ∧ media_file_upload api aab_file = None
           ∧ bundles_upload api e (package_name u) aab_file = inr (Some vc)
           ∧ tracks_update api e (package_name u) track vc = None).
Proof.
  intros Hservice.
  unfold upload_bundle, upload_failed, upload_stages, upload_succeeds.
  rewrite Hservice. cbn [negb].
  destruct (edits_insert api (package_name u)) as [e|[id|]] eqn:Hins.
  - eexists _, _, _. split; [reflexivity|]. simpl.
    repeat split; try done.
    + by intros (? & ? & ? & _).
    + intros ? ? Hin. find_commit Hin.
  - cbn [package_name set_edit_id].
    destruct (media_file_upload api aab_file) as [e|] eqn:Hmedia.
    + eexists _, _, _. split; [reflexivity|]. simpl.
      rewrite <- !app_assoc. repeat split; try done.
      * intros (? & ? & [= <-] & ? & _). done.
      * intros ? ? Hin. find_commit Hin.
    + destruct (bundles_upload api id (package_name u) aab_file)
        as [e|[vc|]] eqn:Hup.
      * eexists _, _, _. split; [reflexivity|]. simpl.
        rewrite <- !app_assoc. repeat split; try done.
        -- intros (? & ? & [= <-] & _ & ? & _). congruence.
        -- intros ? ? Hin. find_commit Hin.
      * destruct (tracks_update api id (package_name u) track vc)
          as [e|] eqn:Htrack.
        -- eexists _, _, _. split; [reflexivity|]. simpl.
           rewrite <- !app_assoc. repeat split; try done.
           ++ intros (? & ? & [= <-] & _ & Hup' & Htrack' & _).
              rewrite Hup in Hup'. injection Hup' as <-. congruence.
           ++ intros ? ? Hin. find_commit Hin.
        -- destruct (edits_commit api id (package_name u)) as [e|] eqn:Hcommit.
           ++ eexists _, _, _. split; [reflexivity|]. simpl.
              rewrite <- !app_assoc. repeat split; try done.
              ** intros (? & ? & [= <-] & _ & Hup' & _ & Hcommit').
                 congruence.
              ** intros e' p Hin. exists vc.
                 find_commit Hin. by injection Hin as -> ->.
           ++ eexists _, _, _. split; [reflexivity|]. simpl.
              rewrite <- !app_assoc. repeat split; try done.
              ** intros _. by exists id, vc.
              ** intros _. by exists id, vc.
              ** intros e' p Hin. exists vc.
                 find_commit Hin. by injection Hin as -> ->.
      * eexists _, _, _. split; [reflexivity|]. simpl.
        rewrite <- !app_assoc. repeat split; try done.
        -- intros (? & ? & [= <-] & _ & ? & _). congruence.
        -- intros ? ? Hin. find_commit Hin.
  - eexists _, _, _. split; [reflexivity|]. simpl.
    repeat split; try done.
    + by intros (? & ? & ? & _).
    + intros ? ? Hin. find_commit Hin.
Qed.

End Upload.

Section UploadMain.

Import PlayStore.

Variable api : Google.

Lemma upload_bundle_ok_iff u w aab_file track :
  service u = true ->
  ∃ u' w' ok,
    upload_bundle api u w aab_file track = (u', w', ok)
    ∧ files w' = files w
    ∧ credentials_file u' = credentials_file u
    ∧ (ok = true ↔ upload_succeeds api (package_name u) aab_file track).
Proof.
  intros Hservice. unfold upload_bundle, upload_failed, upload_succeeds.
  rewrite Hservice. cbn [negb].
  destruct (edits_insert api (package_name u)) as [e|[id|]] eqn:Hins;
    [eexists _, _, _; split; [done|]; repeat split; try done;
     by intros (? & ? & ? & _)| |
     eexists _, _, _; split; [done|]; repeat split; try done;
     by intros (? & ? & ? & _)].
  cbn [package_name set_edit_id].
  destruct (media_file_upload api aab_file) as [e|] eqn:Hmedia;
    [eexists _, _, _; split; [done|]; repeat split; try done;
     by intros (? & ? & _ & ? & _)|].
  destruct (bundles_upload api id (package_name u) aab_file)
    as [e|[vc|]] eqn:Hup;
    [eexists _, _, _; split; [done|]; repeat split; try done;
     intros (? & ? & [= <-] & _ & ? & _); congruence| |
     eexists _, _, _; split; [done|]; repeat split; try done;
     intros (? & ? & [= <-] & _ & ? & _); congruence].
  destruct (tracks_update api id (package_name u) track vc) as [e|] eqn:Htrack;
    [eexists _, _, _; split; [done|]; repeat split; try done;
     intros (? & ? & [= <-] & _ & Hup' & Htrack' & _);
     rewrite Hup in Hup'; injection Hup' as <-; congruence|].
  destruct (edits_commit api id (package_name u)) as [e|] eqn:Hcommit.
  - eexists _, _, _. split; [done|]. repeat split; try done.
    intros (? & ? & [= <-] & _ & _ & _ & ?). congruence.
  - eexists _, _, _. split; [done|]. repeat split; try done.
    intros _. by exists id, vc.
Qed.

Lemma main_try_spec u w aab_file track :
  ∃ u' w' pending,
    main_try api u w aab_file track = (u', w', pending)
    ∧ files w' = files w
    ∧ credentials_file u' = credentials_file u
    ∧ (pending = Returns ∨ pending = SystemExit 1)
    ∧ (pending = Returns ↔
       from_service_account_file api (credentials_file u) = None
       ∧ build api = None
       ∧ upload_succeeds api (package_name u) aab_file track).
Proof.
  unfold main_try.
  destruct (authenticate_spec api u w)
    as (u1 & w1 & ok1 & -> & Hf1 & Hc1 & Hp1 & Hok1 & Hs1).
  destruct ok1.
  - destruct (upload_bundle_ok_iff u1 w1 aab_file track (Hs1 eq_refl))
      as (u2 & w2 & ok2 & -> & Hf2 & Hc2 & Hok2).
    rewrite Hp1 in Hok2. destruct ok2.
    + eexists _, _, _. split; [done|]. simpl.
      split; [congruence|]. split; [congruence|]. split; [by left|].
      split; [|done]. intros _.
      destruct (proj1 Hok1 eq_refl) as [? ?]. repeat split; try done.
      by apply Hok2.
    + eexists _, _, _. split; [done|]. simpl.
      split; [congruence|]. split; [congruence|]. split; [by right|].
      split; [done|]. intros (_ & _ & Hup). by apply Hok2 in Hup.
  - eexists _, _, _. split; [done|].
    split; [done|]. split; [done|]. split; [by right|].
    split; [done|]. intros (Hcred & Hbuild & _).
    by pose proof (proj2 Hok1 (conj Hcred Hbuild)).
Qed.

(** X14: [main] and the files: without the bundle it ends by [sys.exit(1)]
    before anything else, leaving every file, the service-account file
    included, in place and calling no service. With the bundle, and
    [os.remove] succeeding, the service-account file is gone afterwards
    and every other file is kept, whatever the services answer; if
    [os.remove] fails, its exception ends the script and no file is
    removed. *)
Theorem main_removes_credentials getenv w :
  ("app-release.aab" ∉ files w ->
     main api getenv w
       = (print "❌ AAB file not found: app-release.aab" w, SystemExit 1))
  ∧ ("app-release.aab" ∈ files w ->
     os_remove api "service-account.json" = None ->
     files (main api getenv w).1 = files w ∖ {["service-account.json"]})
  ∧ ("app-release.aab" ∈ files w -> "service-account.json" ∈ files w ->
     ∀ e, os_remove api "service-account.json" = Some e ->
       files (main api getenv w).1 = files w
       ∧ (main api getenv w).2 = Uncaught e).
Proof.
  unfold main.
  set (u := PlayStoreUploader_init _ _).
  destruct (main_try_spec u w "app-release.aab" "internal")
    as (u' & w' & pending & Htry & Hfiles & Hcred & _).
  rewrite Htry. unfold cleanup. rewrite Hcred, Hfiles. subst u. cbn [credentials_file PlayStoreUploader_init].
  split; [|split].
  - intros Hno. by rewrite bool_decide_eq_false_2.
  - intros Hyes Hrm. rewrite bool_decide_eq_true_2 by done. cbn [negb].
    destruct (decide ("service-account.json" ∈ files w)) as [Hin|Hout].
    + rewrite Hrm. simpl. by rewrite Hfiles.
    + simpl. rewrite Hfiles. symmetry. apply difference_disjoint_L.
      by apply disjoint_singleton_r.
  - intros Hyes Hin e Hrm. rewrite bool_decide_eq_true_2 by done. cbn [negb].
    rewrite decide_True by done. rewrite Hrm. simpl. by rewrite Hfiles.
Qed.

(** X15: [main] and its exit status, when the bundle exists and [os.remove]
    succeeds: the script ends either by returning or by [sys.exit(1)],
    and it returns exactly when the credentials load, the service is
    built and the five upload calls succeed in turn. *)
Theorem main_exit_status getenv w :
  "app-release.aab" ∈ files w ->
  os_remove api "service-account.json" = None ->
  let package :=
    os_getenv getenv "PLAY_CONSOLE_PACKAGE_NAME"
      "com.example.digital_twin_fashion" in
  ((main api getenv w).2 = Returns ∨ (main api getenv w).2 = SystemExit 1)
  ∧ ((main api getenv w).2 = Returns ↔
     from_service_account_file api "service-account.json" = None
     ∧ build api = None
     ∧ upload_succeeds api package "app-release.aab" "internal").
Proof.
  intros Hyes Hrm package. unfold main.
  rewrite bool_decide_eq_true_2 by done. cbn [negb].
  set (u := PlayStoreUploader_init _ _).
  destruct (main_try_spec u w "app-release.aab" "internal")
    as (u' & w' & pending & Htry & Hfiles & Hcred & Hcases & Hiff).
  rewrite Htry. unfold cleanup. rewrite Hcred. subst u. cbn [credentials_file PlayStoreUploader_init].
  rewrite Hrm. by destruct (decide _).
Qed.

End UploadMain.

Lemma upload_bundle_commit_last_witness :
  ∃ u w,
    PlayStore.upload_bundle PlayStore.google_rejects_bundle
      (PlayStore.set_service
         (PlayStore.PlayStoreUploader_init "service-account.json" "com.app"))
      PlayStore.world_ready "app-release.aab" "internal" = (u, w, false)
    ∧ PlayStore.calls w
      = [PlayStore.CallInsert "com.app"; PlayStore.CallMedia "app-release.aab";
         PlayStore.CallUpload "edit-1" "com.app" "app-release.aab"].
Proof.
  destruct (upload_bundle_commit_last PlayStore.google_rejects_bundle
              (PlayStore.set_service
                 (PlayStore.PlayStoreUploader_init "service-account.json" "com.app"))
              PlayStore.world_ready "app-release.aab" "internal" eq_refl)
    as (u & w & ok & Hrun & _ & _ & Hcalls & Hok & _).
  exists u, w. rewrite Hrun, Hcalls, Hok. split; reflexivity.
Defined.

Lemma main_removes_credentials_witness :
  PlayStore.files
    (PlayStore.main PlayStore.google_rejects_bundle (fun _ => None)
       PlayStore.world_ready).1
  = {["app-release.aab"; "service-account.json"]} ∖ {["service-account.json"]}
  ∧ PlayStore.files
      (PlayStore.main PlayStore.google_ok (fun _ => None)
         PlayStore.world_without_bundle).1
    = {["service-account.json"]}.
Proof.
  split.
  - destruct (main_removes_credentials PlayStore.google_rejects_bundle
                (fun _ => None) PlayStore.world_ready) as (_ & Hclean & _).
    apply Hclean; [|reflexivity]. vm_compute. done.
  - destruct (main_removes_credentials PlayStore.google_ok
                (fun _ => None) PlayStore.world_without_bundle) as (Hno & _).
    rewrite Hno; [reflexivity|]. vm_compute. done.
Defined.

Lemma main_exit_status_witness :
  (PlayStore.main PlayStore.google_ok (fun _ => None) PlayStore.world_ready).2
    = PlayStore.Returns
  ∧ (PlayStore.main PlayStore.google_rejects_bundle (fun _ => None)
       PlayStore.world_ready).2 = PlayStore.SystemExit 1.
Proof.
  assert ("app-release.aab" ∈ PlayStore.files PlayStore.world_ready) as Hin
    by (vm_compute; done).
  split.
  - destruct (main_exit_status PlayStore.google_ok (fun _ => None)
                PlayStore.world_ready Hin eq_refl) as [_ Hiff].
    apply Hiff. split; [done|]. split; [done|].
    exists "edit-1", 42%Z. by repeat split.
  - destruct (main_exit_status PlayStore.google_rejects_bundle (fun _ => None)
                PlayStore.world_ready Hin eq_refl) as [[Hret|Hexit] Hiff];
      [|exact Hexit].
    apply Hiff in Hret as (_ & _ & id & vc & _ & _ & Hup & _).
    discriminate Hup.
Defined.
